(** * Axotly: a shallow embedding of the parser, assertion engine,
    test-case runner and executor of the [.ax] HTTP test runner.

    Source files embedded:
    - [src/domain/assertion.rs]     : [Value], [Operator], [Assertion],
                                      [resolve_path], [compare], [Assertion::check]
    - [src/domain/http_request.rs]  : [HttpRequest], [HttpResponse], [Body],
                                      [HttpRequest::new], [call_request], [send]
    - [src/domain/test_case.rs]     : [TestResult], [TestCase], [TestCase::run]
    - [src/executor.rs]             : [Executor::run_tests]
    - [src/parser/parser.rs]        : [parse_value], [parse_in_op], ...,
                                      [parse_http_request], [parse_file]

    External crates (serde_json's parser, the url crate's parser, reqwest's
    transport) are kept as parameters of Sections. *)

From Stdlib Require Import String Ascii List ZArith Bool Lia.
From Stdlib Require Import DecimalString DecimalPos.
Import ListNotations.
Set Warnings "-register-all".
Open Scope string_scope.

(* ------------------------------------------------------------------ *)
(** ** Rust-like results and string helpers *)

Inductive Result (E A : Type) : Type :=
| Ok : A -> Result E A
| Err : E -> Result E A.
Arguments Ok {E A} _.
Arguments Err {E A} _.

Definition bind {E A B} (m : Result E A) (f : A -> Result E B) : Result E B :=
  match m with
  | Ok a => f a
  | Err e => Err e
  end.

(** [let* x := m in k] plays the role of Rust's [?] operator. *)
Notation "'let*' x ':=' m 'in' k" := (bind m (fun x => k))
  (at level 200, x name, m at level 100, k at level 200).

(** [str::split('.')]: every piece, empty ones included. *)
Fixpoint split_dot_aux (cur : string) (s : string) : list string :=
  match s with
  | EmptyString => [cur]
  | String c rest =>
      if Ascii.eqb c "."%char then cur :: split_dot_aux EmptyString rest
      else split_dot_aux (cur ++ String c EmptyString) rest
  end.

Definition split_dot (s : string) : list string := split_dot_aux EmptyString s.

(** [str::strip_prefix]. *)
Definition strip_prefix (pre s : string) : option string :=
  if String.prefix pre s
  then Some (substring (String.length pre) (String.length s - String.length pre) s)
  else None.

(** [i64] display in decimal. *)
Definition z_to_string (n : Z) : string := NilZero.string_of_int (Z.to_int n).

Definition bool_to_string (b : bool) : string := if b then "true" else "false".

Definition dq : string := String (Ascii.ascii_of_nat 34) EmptyString.

(** Rust's [char::escape_debug] on the characters that [Debug] for
    strings escapes among printable ASCII: the double quote and the
    backslash. *)
Fixpoint escape_debug (s : string) : string :=
  match s with
  | EmptyString => EmptyString
  | String c rest =>
      if Ascii.eqb c (Ascii.ascii_of_nat 34) || Ascii.eqb c (Ascii.ascii_of_nat 92)
      then String (Ascii.ascii_of_nat 92) (String c (escape_debug rest))
      else String c (escape_debug rest)
  end.

Definition i64_min : Z := - 2 ^ 63.
Definition i64_max : Z := 2 ^ 63 - 1.

(* ------------------------------------------------------------------ *)
(** ** [src/domain/assertion.rs]: values, operators, assertions *)

Inductive Value : Type :=
| VString (s : string)
| VNumber (n : Z)
| VBool (b : bool).

(** [#[derive(PartialEq)]] on [Value]. *)
Definition value_eqb (a b : Value) : bool :=
  match a, b with
  | VString x, VString y => String.eqb x y
  | VNumber x, VNumber y => Z.eqb x y
  | VBool x, VBool y => Bool.eqb x y
  | _, _ => false
  end.

Inductive Operator : Type := Eq | Ne | Gt | Lt | Gte | Lte.

Inductive Assertion : Type :=
| Binary (path : string) (op : Operator) (value : Value)
| In (path : string) (values : list Value)
| Between (path : string) (min max : Value)
| Exists (path : string)
| Unary (path : string).

Definition assertion_path (a : Assertion) : string :=
  match a with
  | Binary p _ _ | In p _ | Between p _ _ | Exists p | Unary p => p
  end.

Record AssertionFailure : Type := {
  af_path : string;
  af_expected : option string;
  af_actual : option string;
  af_message : string
}.

(** [impl fmt::Display for Value]. *)
Definition value_to_string (v : Value) : string :=
  match v with
  | VString s => dq ++ s ++ dq
  | VNumber n => z_to_string n
  | VBool b => bool_to_string b
  end.

(** [#[derive(Debug)]] on [Value] and on [Operator]. *)
Definition value_debug (v : Value) : string :=
  match v with
  | VString s => "String(" ++ dq ++ escape_debug s ++ dq ++ ")"
  | VNumber n => "Number(" ++ z_to_string n ++ ")"
  | VBool b => "Bool(" ++ bool_to_string b ++ ")"
  end.

Definition values_debug (vs : list Value) : string :=
  "[" ++ String.concat ", " (map value_debug vs) ++ "]".

Definition operator_debug (op : Operator) : string :=
  match op with
  | Eq => "Eq" | Ne => "Ne" | Gt => "Gt" | Lt => "Lt" | Gte => "Gte" | Lte => "Lte"
  end.

(** [serde_json::Value]; a number is a [u64], an [i64] or an [f64]
    (a float is kept by its text only). *)
Inductive JsonNumber : Type :=
| PosInt (u : Z)
| NegInt (i : Z)
| Float (repr : string).

Inductive JsonValue : Type :=
| JNull
| JBool (b : bool)
| JNumber (n : JsonNumber)
| JString (s : string)
| JArray (xs : list JsonValue)
| JObject (fields : list (string * JsonValue)).

(** [serde_json::Number::as_i64]. *)
Definition as_i64 (n : JsonNumber) : option Z :=
  match n with
  | PosInt u => if Z.leb u i64_max then Some u else None
  | NegInt i => Some i
  | Float _ => None
  end.

Fixpoint assoc_get {A} (k : string) (m : list (string * A)) : option A :=
  match m with
  | [] => None
  | (k', v) :: m' => if String.eqb k k' then Some v else assoc_get k m'
  end.

(** [serde_json::Value::get] with a [&str] index: object lookup, [None]
    on every other variant. *)
Definition json_get (j : JsonValue) (key : string) : option JsonValue :=
  match j with
  | JObject fields => assoc_get key fields
  | _ => None
  end.

(** [compare]. *)
Definition compare (op : Operator) (actual expected : Value) : bool :=
  match op, actual, expected with
  | Eq, a, b => value_eqb a b
  | Ne, a, b => negb (value_eqb a b)
  | Gt, VNumber a, VNumber b => Z.gtb a b
  | Lt, VNumber a, VNumber b => Z.ltb a b
  | Gte, VNumber a, VNumber b => Z.geb a b
  | Lte, VNumber a, VNumber b => Z.leb a b
  | _, _, _ => false
  end.

(* ------------------------------------------------------------------ *)
(** ** [src/domain/http_request.rs]: requests and responses *)

(** [url::Url], kept by its serialisation [Url::as_str]. *)
Definition Url : Type := string.

Inductive Body : Type :=
| Text (s : string)
| Json (v : JsonValue).

(** A [HashMap<String, String>] as an association list without duplicate
    keys; [hashmap_insert] replaces the value of an existing key. *)
Definition HashMap : Type := list (string * string).

Fixpoint hashmap_insert (k v : string) (m : HashMap) : HashMap :=
  match m with
  | [] => [(k, v)]
  | (k', v') :: m' =>
      if String.eqb k k' then (k, v) :: m' else (k', v') :: hashmap_insert k v m'
  end.

Record HttpRequest : Type := mkHttpRequest {
  method : string;
  url : Url;
  headers : HashMap;
  body : option Body
}.

Record HttpResponse : Type := mkHttpResponse {
  request : option HttpRequest;
  duration : nat;
  status : N;                    (* u16 *)
  resp_headers : HashMap;
  resp_body : option string
}.

(** [str::to_uppercase] on ASCII text. *)
Fixpoint to_uppercase (s : string) : string :=
  match s with
  | EmptyString => EmptyString
  | String c rest =>
      let n := Ascii.nat_of_ascii c in
      if Nat.leb 97 n && Nat.leb n 122
      then String (Ascii.ascii_of_nat (n - 32)) (to_uppercase rest)
      else String c (to_uppercase rest)
  end.

(** [HttpRequest::new]. *)
Definition HttpRequest_new (m : string) (u : Url) : HttpRequest :=
  {| method := to_uppercase m; url := u; headers := []; body := None |}.

(** [reqwest::Method] values that [call_request] maps to. *)
Inductive ReqwestMethod : Type := GET | POST | PUT | PATCH | DELETE | HEAD | OPTIONS.

(** The error of [call_request] / [send] ([anyhow::Error]): the explicit
    invalid-method error, or an error coming from reqwest. *)
Inductive HttpError : Type :=
| InvalidMethod (m : string)
| TransportError (msg : string).

(** [Display] of the error ([e.to_string()]). *)
Definition http_error_to_string (e : HttpError) : string :=
  match e with
  | InvalidMethod m => "Invalid HTTP method: " ++ m
  | TransportError msg => msg
  end.

(** What reqwest hands back for a sent request before its body is read:
    the status, the headers, and the outcome of [response.text()]. *)
Record RawResponse : Type := {
  raw_status : N;
  raw_headers : HashMap;
  raw_text : Result HttpError string
}.

(** The method mapping of [call_request]. *)
Definition reqwest_method (m : string) : option ReqwestMethod :=
  if String.eqb m "GET" then Some GET
  else if String.eqb m "POST" then Some POST
  else if String.eqb m "PUT" then Some PUT
  else if String.eqb m "PATCH" then Some PATCH
  else if String.eqb m "DELETE" then Some DELETE
  else if String.eqb m "HEAD" then Some HEAD
  else if String.eqb m "OPTIONS" then Some OPTIONS
  else None.

Section Http.

(** The network: reqwest building and sending a request with a method.
    Every I/O of [call_request] happens inside [transport]. *)
Variable transport : ReqwestMethod -> HttpRequest -> Result HttpError RawResponse.
(** [start.elapsed()] inside [send]. *)
Variable send_elapsed : nat.

(** [HttpRequest::call_request]. *)
Definition call_request (self : HttpRequest) : Result HttpError RawResponse :=
  match reqwest_method self.(method) with
  | None => Err (InvalidMethod self.(method))
  | Some m => transport m self
  end.

(** [HttpRequest::send]. *)
Definition send (self : HttpRequest) : Result HttpError HttpResponse :=
  let* response := call_request self in
  let* text := raw_text response in
  Ok {| request := Some self;
        duration := send_elapsed;
        status := raw_status response;
        resp_headers := raw_headers response;
        resp_body := Some text |}.

End Http.

(* ------------------------------------------------------------------ *)
(** ** [src/domain/assertion.rs]: path resolution and [check] *)

Section Check.

(** [serde_json::from_str::<serde_json::Value>], [.ok()]. *)
Variable from_str : string -> option JsonValue.

(** The [for key in rest.split('.')] loop with [current.get(key)?]. *)
Fixpoint descend (current : JsonValue) (keys : list string) : option JsonValue :=
  match keys with
  | [] => Some current
  | key :: keys' =>
      match json_get current key with
      | Some next => descend next keys'
      | None => None
      end
  end.

(** [resolve_path]. *)
Definition resolve_path (response : HttpResponse) (path : string) : option Value :=
  if String.eqb path "status" then Some (VNumber (Z.of_N response.(status)))
  else if String.eqb path "body" then option_map VString response.(resp_body)
  else
    match strip_prefix "body." path with
    | Some rest =>
        match response.(resp_body) with
        | None => None
        | Some body_str =>
            match from_str body_str with
            | None => None
            | Some json =>
                match descend json (split_dot rest) with
                | None => None
                | Some (JString s) => Some (VString s)
                | Some (JNumber n) =>
                    match as_i64 n with Some i => Some (VNumber i) | None => None end
                | Some (JBool b) => Some (VBool b)
                | Some _ => None
                end
            end
        end
    | None => None
    end.

Definition not_found (path : string) : string := "Path '" ++ path ++ "' not found".

(** [Assertion::check]. *)
Definition check (self : Assertion) (response : HttpResponse)
  : Result AssertionFailure unit :=
  match self with
  | Binary path op value =>
      match resolve_path response path with
      | None =>
          Err {| af_path := path; af_expected := Some (value_to_string value);
                 af_actual := None; af_message := not_found path |}
      | Some actual =>
          if negb (compare op actual value)
          then Err {| af_path := path; af_expected := Some (value_to_string value);
                      af_actual := Some (value_to_string actual);
                      af_message := "Expected " ++ path ++ " " ++ operator_debug op
                                    ++ " " ++ value_to_string value |}
          else Ok tt
      end
  | Exists path =>
      match resolve_path response path with
      | None =>
          Err {| af_path := path; af_expected := Some "exists"; af_actual := None;
                 af_message := "Expected '" ++ path ++ "' to exist" |}
      | Some _ => Ok tt
      end
  | Unary path =>
      match resolve_path response path with
      | None =>
          Err {| af_path := path; af_expected := Some "true"; af_actual := None;
                 af_message := not_found path |}
      | Some actual =>
          if negb (value_eqb actual (VBool true))
          then Err {| af_path := path; af_expected := Some "true";
                      af_actual := Some (value_to_string actual);
                      af_message := "Expected '" ++ path ++ "' to be true" |}
          else Ok tt
      end
  | In path values =>
      match resolve_path response path with
      | None =>
          Err {| af_path := path; af_expected := Some (values_debug values);
                 af_actual := None; af_message := not_found path |}
      | Some actual =>
          if negb (existsb (value_eqb actual) values)
          then Err {| af_path := path; af_expected := Some (values_debug values);
                      af_actual := Some (value_to_string actual);
                      af_message := "Expected '" ++ path ++ "' to be in list" |}
          else Ok tt
      end
  | Between path min max =>
      let expected := "between " ++ value_to_string min ++ " and " ++ value_to_string max in
      match resolve_path response path with
      | None =>
          Err {| af_path := path; af_expected := Some expected;
                 af_actual := None; af_message := not_found path |}
      | Some actual =>
          match actual, min, max with
          | VNumber a, VNumber lo, VNumber hi =>
              if Z.geb a lo && Z.leb a hi then Ok tt
              else Err {| af_path := path; af_expected := Some expected;
                          af_actual := Some (value_to_string actual);
                          af_message := "Value not in range" |}
          | _, _, _ =>
              Err {| af_path := path; af_expected := Some expected;
                     af_actual := Some (value_to_string actual);
                     af_message := "Value not in range" |}
          end
      end
  end.

End Check.

(* ------------------------------------------------------------------ *)
(** ** [src/domain/test_case.rs]: [TestResult], [TestCase], [TestCase::run] *)

Inductive TestResult : Type :=
| Passed (duration : nat)
| Failed (duration : nat) (errors : list AssertionFailure).

Record TestCase : Type := mkTestCase {
  name : option string;
  tc_request : HttpRequest;
  response : option HttpResponse;
  assertions : list Assertion;
  result : option TestResult
}.

Section Run.

Variable transport : ReqwestMethod -> HttpRequest -> Result HttpError RawResponse.
Variable send_elapsed : nat.
Variable from_str : string -> option JsonValue.
(** [start.elapsed()] inside [TestCase::run]. *)
Variable run_elapsed : nat.

(** [for assertion in &self.assertions { if let Err(err) = assertion.check(&response)
    { errors.push(err); } }] *)
Definition check_all (response : HttpResponse) (asserts : list Assertion)
  : list AssertionFailure :=
  fold_left (fun errors assertion =>
               match check from_str assertion response with
               | Err err => (errors ++ [err])%list
               | Ok _ => errors
               end) asserts [].

(** [TestCase::run]. *)
Definition run (self : TestCase) : TestCase :=
  match send transport send_elapsed self.(tc_request) with
  | Err error =>
      {| name := self.(name); tc_request := self.(tc_request);
         response := self.(response); assertions := self.(assertions);
         result := Some (Failed run_elapsed
                           [{| af_path := "request"; af_expected := None;
                               af_actual := None;
                               af_message := http_error_to_string error |}]) |}
  | Ok resp =>
      let errors := check_all resp self.(assertions) in
      {| name := self.(name); tc_request := self.(tc_request);
         response := Some resp; assertions := self.(assertions);
         result := match errors with
                   | [] => Some (Passed run_elapsed)
                   | _ => Some (Failed run_elapsed errors)
                   end |}
  end.

(** [tokio::task::JoinError]: the task panicked. *)
Inductive JoinError : Type := Panicked.

(** Which spawned task (by spawn index) panics; its [JoinHandle] then
    yields [Err]. *)
Variable panics : nat -> bool.

(** The spawning loop of [Executor::run_tests]: task [i] runs
    [test_case.run()] after acquiring its permit. *)
Fixpoint spawn_all (i : nat) (test_cases : list TestCase)
  : list (Result JoinError TestCase) :=
  match test_cases with
  | [] => []
  | test_case :: rest =>
      (if panics i then Err Panicked else Ok (run test_case)) :: spawn_all (S i) rest
  end.

(** [for handle in handles { if let Ok(test_case) = handle.await
    { results.push(test_case); } }] *)
Definition join_all (handles : list (Result JoinError TestCase)) : list TestCase :=
  fold_left (fun results handle =>
               match handle with
               | Ok test_case => (results ++ [test_case])%list
               | Err _ => results
               end) handles [].

(** [Executor::run_tests] (the result; the permits are in [Sched]). *)
Definition run_tests (test_cases : list TestCase) : list TestCase :=
  join_all (spawn_all 0 test_cases).

(** The input test cases whose task does not panic, in input order. *)
Definition survivors (test_cases : list TestCase) : list TestCase :=
  map snd (filter (fun it => negb (panics (fst it)))
                  (combine (seq 0 (length test_cases)) test_cases)).

(** One failure per failing assertion, in authored order. *)
Definition failures (resp : HttpResponse) (asserts : list Assertion)
  : list AssertionFailure :=
  flat_map (fun a => match check from_str a resp with
                     | Err e => [e]
                     | Ok _ => []
                     end) asserts.

End Run.

(* ------------------------------------------------------------------ *)
(** ** [src/executor.rs]: the permits of [Executor::run_tests]

    A step relation over the tasks of one call: the spawning loop
    spawns the tasks in input order; a spawned task waits on
    [sem.acquire()], runs [test_case.run()] holding the permit and
    drops the permit ([_permit]) when it ends, normally or by a panic;
    once every task is spawned, the collecting loop awaits the handles in
    spawn order. [Semaphore::new(max_concurrency)] starts with
    [max_concurrency] permits. *)
Module Sched.

Inductive Phase : Type := Unspawned | Waiting | Running | Finished.

Record State : Type := mkState {
  permits : nat;             (* available permits of the semaphore *)
  tasks : list Phase;        (* one entry per test case, in input order *)
  collected : nat            (* handles already awaited *)
}.

Definition is_unspawned (p : Phase) : bool :=
  match p with Unspawned => true | _ => false end.

Definition is_running (p : Phase) : bool :=
  match p with Running => true | _ => false end.

(** Units in flight: between permit acquisition and release. *)
Definition in_flight (s : State) : nat := length (filter is_running s.(tasks)).

Inductive step : State -> State -> Prop :=
| step_spawn : forall p pre post c,
    forallb (fun x => negb (is_unspawned x)) pre = true ->
    step (mkState p (pre ++ Unspawned :: post) c) (mkState p (pre ++ Waiting :: post) c)
| step_acquire : forall p pre post c,
    step (mkState (S p) (pre ++ Waiting :: post) c) (mkState p (pre ++ Running :: post) c)
| step_release : forall p pre post c,
    step (mkState p (pre ++ Running :: post) c) (mkState (S p) (pre ++ Finished :: post) c)
| step_collect : forall p ts c,
    forallb (fun x => negb (is_unspawned x)) ts = true ->
    nth_error ts c = Some Finished ->
    step (mkState p ts c) (mkState p ts (S c)).

Definition init (max_concurrency n : nat) : State :=
  mkState max_concurrency (repeat Unspawned n) 0.

(** [run_tests] has returned: every handle has been awaited. *)
Definition final (s : State) : Prop := s.(collected) = length s.(tasks).

Inductive reachable (max_concurrency n : nat) : State -> Prop :=
| reach_init : reachable max_concurrency n (init max_concurrency n)
| reach_step : forall s s', reachable max_concurrency n s -> step s s' ->
    reachable max_concurrency n s'.

(** Work left: each phase weighs the steps it still has to take. *)
Definition weight (p : Phase) : nat :=
  match p with Unspawned => 3 | Waiting => 2 | Running => 1 | Finished => 0 end.

Definition measure (s : State) : nat :=
  list_sum (map weight s.(tasks)) + (length s.(tasks) - s.(collected)).

(** The semaphore's permits and the units in flight add up to
    [max_concurrency]; the number of tasks never changes. *)
Definition inv (max_concurrency n : nat) (s : State) : Prop :=
  permits s + in_flight s = max_concurrency /\ length (tasks s) = n
  /\ collected s <= n.

End Sched.

(* ------------------------------------------------------------------ *)
(** ** [src/parser/parser.rs]: lifting pest pairs into test cases

    [AxParser] is derived by pest from [src/parser/grammar.pest]; the
    functions of [parser.rs] walk the pairs it produces. A pair is its
    rule, the text it spans ([as_str]) and its children ([into_inner]). *)

Module Rule.
Inductive t : Type :=
| file | test_block | test_name | request | method | url | headers | header
| header_name | header_value | body | body_content | expects | expect
| expect_expr | binary_op | in_op | between_op | exists_op | unary_path
| path | operator | value | quoted_string | number | boolean | EOI.
Scheme Equality for t.
End Rule.

Inductive Pair : Type := mkPair {
  as_rule : Rule.t;
  as_str : string;
  into_inner : list Pair
}.

Definition is_rule (p : Pair) (r : Rule.t) : bool := Rule.t_beq (as_rule p) r.

(** [anyhow::Error] of the parser, and the panic of [Option::unwrap]. *)
Inductive ParseError : Type :=
| Msg (msg : string)
| Panic (msg : string).

Definition unwrap {A} (o : option A) : Result ParseError A :=
  match o with
  | Some a => Ok a
  | None => Err (Panic "called `Option::unwrap()` on a `None` value")
  end.

(** [Iterator::next] on the children. *)
Definition next (ps : list Pair) : option Pair * list Pair :=
  match ps with
  | [] => (None, [])
  | p :: rest => (Some p, rest)
  end.

(** [str::parse::<i64>]: an optional sign, one or more ASCII digits, and
    a result within [i64]. *)
Fixpoint digits_value (acc : Z) (s : string) : option Z :=
  match s with
  | EmptyString => Some acc
  | String c rest =>
      let n := Ascii.nat_of_ascii c in
      if Nat.leb 48 n && Nat.leb n 57
      then digits_value (acc * 10 + Z.of_nat (n - 48)) rest
      else None
  end.

Definition parse_i64 (s : string) : option Z :=
  let '(neg, digits) :=
    match s with
    | String c rest =>
        if Ascii.eqb c "-"%char then (true, rest)
        else if Ascii.eqb c "+"%char then (false, rest)
        else (false, s)
    | EmptyString => (false, s)
    end in
  match digits with
  | EmptyString => None
  | _ =>
      match digits_value 0 digits with
      | None => None
      | Some n =>
          let z := if neg then Z.opp n else n in
          if Z.leb i64_min z && Z.leb z i64_max then Some z else None
      end
  end.

(** [parse_value]. *)
Fixpoint parse_value (pair : Pair) : Result ParseError Value :=
  match pair with
  | mkPair r s inner =>
      match r with
      | Rule.value =>
          match inner with
          | p :: _ => parse_value p
          | [] => unwrap None
          end
      | Rule.quoted_string =>
          if Nat.ltb (String.length s) 2 then Err (Panic "byte index out of range")
          else Ok (VString (substring 1 (String.length s - 2) s))
      | Rule.number =>
          match parse_i64 s with
          | Some n => Ok (VNumber n)
          | None => Err (Msg "invalid digit found in string")
          end
      | Rule.boolean => Ok (VBool (String.eqb s "true"))
      | _ => Err (Msg "Invalid value rule")
      end
  end.

(** [parse_operator]. *)
Definition parse_operator (pair : Pair) : Result ParseError Operator :=
  let s := as_str pair in
  if String.eqb s "==" then Ok Eq
  else if String.eqb s "!=" then Ok Ne
  else if String.eqb s ">" then Ok Gt
  else if String.eqb s "<" then Ok Lt
  else if String.eqb s ">=" then Ok Gte
  else if String.eqb s "<=" then Ok Lte
  else Err (Msg ("Unknown operator " ++ s)).

(** [parse_binary_op]. *)
Definition parse_binary_op (pair : Pair) : Result ParseError Assertion :=
  let '(p1, inner) := next (into_inner pair) in
  let* p1 := unwrap p1 in
  let path := as_str p1 in
  let '(p2, inner) := next inner in
  let* p2 := unwrap p2 in
  let* op := parse_operator p2 in
  let '(p3, _) := next inner in
  let* p3 := unwrap p3 in
  let* val := parse_value p3 in
  Ok (Binary path op val).

(** [for p in inner { if p.as_rule() == Rule::value { values.push(parse_value(p)?); } }] *)
Fixpoint collect_values (values : list Value) (inner : list Pair)
  : Result ParseError (list Value) :=
  match inner with
  | [] => Ok values
  | p :: rest =>
      if is_rule p Rule.value
      then let* v := parse_value p in collect_values (values ++ [v])%list rest
      else collect_values values rest
  end.

(** [parse_in_op]. *)
Definition parse_in_op (pair : Pair) : Result ParseError Assertion :=
  let '(p1, inner) := next (into_inner pair) in
  let* p1 := unwrap p1 in
  let path := as_str p1 in
  let* values := collect_values [] inner in
  Ok (In path values).

(** [parse_between_op]. *)
Definition parse_between_op (pair : Pair) : Result ParseError Assertion :=
  let '(p1, inner) := next (into_inner pair) in
  let* p1 := unwrap p1 in
  let path := as_str p1 in
  let '(p2, inner) := next inner in
  let* p2 := unwrap p2 in
  let* min := parse_value p2 in
  let '(p3, _) := next inner in
  let* p3 := unwrap p3 in
  let* max := parse_value p3 in
  Ok (Between path min max).

(** [parse_exists_op]. *)
Definition parse_exists_op (pair : Pair) : Result ParseError Assertion :=
  let '(p1, _) := next (into_inner pair) in
  let* p1 := unwrap p1 in
  Ok (Exists (as_str p1)).

(** [parse_unary_path]. *)
Definition parse_unary_path (pair : Pair) : Result ParseError Assertion :=
  Ok (Unary (as_str pair)).

(** [parse_assertion]. *)
Definition parse_assertion (pair : Pair) : Result ParseError Assertion :=
  let '(inner, _) := next (into_inner pair) in
  let* inner := unwrap inner in
  match as_rule inner with
  | Rule.binary_op => parse_binary_op inner
  | Rule.in_op => parse_in_op inner
  | Rule.between_op => parse_between_op inner
  | Rule.exists_op => parse_exists_op inner
  | Rule.unary_path => parse_unary_path inner
  | _ => Err (Msg "Unsupported assertion type")
  end.

Section Requests.

(** [Url::parse] of the url crate. *)
Variable url_parse : string -> option Url.

(** [for header_pair in inner.into_inner() { ... headers.insert(key, value); }] *)
Fixpoint collect_headers (headers : HashMap) (header_pairs : list Pair)
  : Result ParseError HashMap :=
  match header_pairs with
  | [] => Ok headers
  | header_pair :: rest =>
      let '(key, header_inner) := next (into_inner header_pair) in
      let* key := unwrap key in
      let '(val, _) := next header_inner in
      let* val := unwrap val in
      collect_headers (hashmap_insert (as_str key) (as_str val) headers) rest
  end.

(** [for body_inner in inner.into_inner() { if body_inner.as_rule() ==
    Rule::body_content { body = Some(Body::Text(text)); } }] *)
Definition collect_body (body : option Body) (body_inners : list Pair) : option Body :=
  fold_left (fun body body_inner =>
               if is_rule body_inner Rule.body_content
               then Some (Text (as_str body_inner)) else body) body_inners body.

Record RequestParts : Type := {
  rp_method : option string;
  rp_url : option Url;
  rp_headers : HashMap;
  rp_body : option Body
}.

(** The [for inner in pair.into_inner()] loop of [parse_http_request]. *)
Fixpoint request_loop (st : RequestParts) (inner : list Pair)
  : Result ParseError RequestParts :=
  match inner with
  | [] => Ok st
  | p :: rest =>
      match as_rule p with
      | Rule.method =>
          request_loop {| rp_method := Some (as_str p); rp_url := rp_url st;
                          rp_headers := rp_headers st; rp_body := rp_body st |} rest
      | Rule.url =>
          match url_parse (as_str p) with
          | None => Err (Msg ("Invalid URL: " ++ as_str p))
          | Some u =>
              request_loop {| rp_method := rp_method st; rp_url := Some u;
                              rp_headers := rp_headers st; rp_body := rp_body st |} rest
          end
      | Rule.headers =>
          let* hs := collect_headers (rp_headers st) (into_inner p) in
          request_loop {| rp_method := rp_method st; rp_url := rp_url st;
                          rp_headers := hs; rp_body := rp_body st |} rest
      | Rule.body =>
          request_loop {| rp_method := rp_method st; rp_url := rp_url st;
                          rp_headers := rp_headers st;
                          rp_body := collect_body (rp_body st) (into_inner p) |} rest
      | _ => request_loop st rest
      end
  end.

(** [parse_http_request]. *)
Definition parse_http_request (pair : Pair) : Result ParseError HttpRequest :=
  let* st := request_loop {| rp_method := None; rp_url := None;
                             rp_headers := []; rp_body := None |} (into_inner pair) in
  match rp_url st with
  | None => Err (Msg "HTTP request missing URL")
  | Some u =>
      Ok {| method := match rp_method st with Some m => m | None => "" end;
            url := u; headers := rp_headers st; body := rp_body st |}
  end.

(** [for expect in inner.into_inner() { ... assertions.push(parse_assertion(expr)?); }] *)
Fixpoint expects_loop (asserts : list Assertion) (expect_pairs : list Pair)
  : Result ParseError (list Assertion) :=
  match expect_pairs with
  | [] => Ok asserts
  | expect :: rest =>
      let '(expr, _) := next (into_inner expect) in
      let* expr := unwrap expr in
      let* a := parse_assertion expr in
      expects_loop (asserts ++ [a])%list rest
  end.

(** The [for inner in pair.into_inner()] loop of [parse_test_block]. *)
Fixpoint block_loop (nm : option string) (req : option HttpRequest)
  (asserts : list Assertion) (inner : list Pair)
  : Result ParseError (option string * option HttpRequest * list Assertion) :=
  match inner with
  | [] => Ok (nm, req, asserts)
  | p :: rest =>
      match as_rule p with
      | Rule.test_name => block_loop (Some (as_str p)) req asserts rest
      | Rule.request =>
          let* r := parse_http_request p in block_loop nm (Some r) asserts rest
      | Rule.expects =>
          let* asserts' := expects_loop asserts (into_inner p) in
          block_loop nm req asserts' rest
      | _ => block_loop nm req asserts rest
      end
  end.

(** [parse_test_block]. *)
Definition parse_test_block (pair : Pair) : Result ParseError TestCase :=
  let* parts := block_loop None None [] (into_inner pair) in
  let '(nm, req, asserts) := parts in
  match req with
  | None => Err (Msg "Test block missing HTTP request")
  | Some r =>
      Ok {| name := nm; tc_request := r; response := None;
            assertions := asserts; result := None |}
  end.

(** The [for inner in file_pair.into_inner()] loop of [parse_file]. *)
Fixpoint file_loop (tests : list TestCase) (inner : list Pair)
  : Result ParseError (list TestCase) :=
  match inner with
  | [] => Ok tests
  | p :: rest =>
      if is_rule p Rule.test_block
      then let* tc := parse_test_block p in file_loop (tests ++ [tc])%list rest
      else file_loop tests rest
  end.

(** [AxParser::parse_file], from the pairs [AxParser::parse(Rule::file, ..)]
    returned. *)
Definition parse_file (pairs : list Pair) : Result ParseError (list TestCase) :=
  let '(file_pair, _) := next pairs in
  match file_pair with
  | None => Err (Msg "Empty .ax file")
  | Some fp => file_loop [] (into_inner fp)
  end.

End Requests.

(* ------------------------------------------------------------------ *)
(** ** The grammar of [.ax] files

    [src/parser/grammar.pest] is not among the sources; the rules the
    parser relies on are modelled from spec §4.A and §4.B, and, where the
    repository's grammar is narrower or differs, as that grammar has them. *)

Definition is_ascii_letter (c : ascii) : bool :=
  let n := Ascii.nat_of_ascii c in
  (Nat.leb 65 n && Nat.leb n 90) || (Nat.leb 97 n && Nat.leb n 122).

Definition is_ascii_digit (c : ascii) : bool :=
  let n := Ascii.nat_of_ascii c in Nat.leb 48 n && Nat.leb n 57.

Fixpoint all_chars (f : ascii -> bool) (s : string) : bool :=
  match s with
  | EmptyString => true
  | String c rest => f c && all_chars f rest
  end.

(** Modelled from the spec: the [method] rule of grammar.pest. §3 gives
    the method as an uppercase ASCII verb; the repository's rule is the
    literal alternatives [GET | POST | PUT | DELETE | PATCH], matched as
    written (a file with [get] fails to parse, "expected method"). *)
Definition method_token (s : string) : bool :=
  existsb (String.eqb s) ["GET"; "POST"; "PUT"; "DELETE"; "PATCH"].

(** Modelled from the spec: the [quoted_string], [number] and [boolean]
    rules of grammar.pest (§4.A: a double-quoted string without an
    embedded quote, a decimal integer, [true | false]); the repository's
    [number] rule is [ASCII_DIGIT+], without the sign §4.A allows. *)
Definition quoted_string_token (s : string) : bool :=
  let n := String.length s in
  Nat.leb 2 n && String.prefix dq s && String.eqb (substring (n - 1) 1 s) dq
  && all_chars (fun c => negb (Ascii.eqb c (Ascii.ascii_of_nat 34)))
               (substring 1 (n - 2) s).

Definition number_token (s : string) : bool :=
  negb (String.eqb s "") && all_chars is_ascii_digit s.

Definition boolean_token (s : string) : bool :=
  String.eqb s "true" || String.eqb s "false".

(** Modelled from the spec: [value := quoted_string | number | boolean]. *)
Definition wf_value (p : Pair) : bool :=
  is_rule p Rule.value &&
  match into_inner p with
  | [q] =>
      match as_rule q with
      | Rule.quoted_string => quoted_string_token (as_str q)
      | Rule.number => number_token (as_str q)
      | Rule.boolean => boolean_token (as_str q)
      | _ => false
      end && forallb (fun _ => false) (into_inner q)
  | _ => false
  end.

Definition operator_token (s : string) : bool :=
  existsb (String.eqb s) ["=="; "!="; ">="; "<="; ">"; "<"].

(** Modelled from the spec: the [expect_expr] alternatives of §4.A; the
    keywords and brackets are literals and give no pairs. *)
Definition wf_assertion_op (p : Pair) : bool :=
  match as_rule p, into_inner p with
  | Rule.binary_op, [pa; o; v] =>
      is_rule pa Rule.path && is_rule o Rule.operator && operator_token (as_str o)
      && wf_value v
  | Rule.in_op, pa :: vs =>
      is_rule pa Rule.path && negb (match vs with [] => true | _ => false end)
      && forallb wf_value vs
  | Rule.between_op, [pa; lo; hi] =>
      is_rule pa Rule.path && wf_value lo && wf_value hi
  | Rule.exists_op, [pa] => is_rule pa Rule.path
  | Rule.unary_path, _ => true
  | _, _ => false
  end.

(** [expect := "EXPECT" expect_expr], [expects := expect*]. *)
Definition wf_expect (p : Pair) : bool :=
  is_rule p Rule.expect &&
  match into_inner p with
  | [e] => is_rule e Rule.expect_expr &&
           match into_inner e with
           | [op] => wf_assertion_op op
           | _ => false
           end
  | _ => false
  end.

(** [request := method ~ url ~ ...]: a request pair starts with its
    [method] and its [url] and has no other [method] child. *)
Definition wf_request (p : Pair) : bool :=
  is_rule p Rule.request &&
  match into_inner p with
  | m :: u :: rest =>
      is_rule m Rule.method && method_token (as_str m) && is_rule u Rule.url
      && forallb (fun q => negb (is_rule q Rule.method)) rest
  | _ => false
  end.

Definition wf_test_block (p : Pair) : bool :=
  is_rule p Rule.test_block &&
  forallb (fun q => if is_rule q Rule.expects then forallb wf_expect (into_inner q)
                    else true) (into_inner p) &&
  forallb (fun q => if is_rule q Rule.request then wf_request q else true) (into_inner p).

(** A successful [AxParser::parse(Rule::file, ..)]: one [file] pair. *)
Definition wf_file (pairs : list Pair) : bool :=
  match pairs with
  | [fp] => is_rule fp Rule.file &&
            forallb (fun q => if is_rule q Rule.test_block then wf_test_block q
                              else true) (into_inner fp)
  | _ => false
  end.

(** Modelled from the spec: the [body] rule of grammar.pest. §4.A puts
    [BODY], the body text and [BODYEND] on lines of their own and captures
    the text verbatim; the repository's rule is
    [body = { body_start ~ NEWLINE+ ~ body_content ~ body_end }] with
    [body_start = "BODY"], [body_end = "BODYEND"],
    [body_content = { (!body_end ~ ANY)* }] and pest's
    [NEWLINE = "\n" | "\r\n" | "\r"]. *)
Definition nl : string := String (Ascii.ascii_of_nat 10) EmptyString.

Definition is_newline_char (c : ascii) : bool :=
  Ascii.eqb c (Ascii.ascii_of_nat 10) || Ascii.eqb c (Ascii.ascii_of_nat 13).

(** The input after a run of line breaks: [NEWLINE*] takes every ["\n"]
    and ["\r"] in turn. *)
Fixpoint skip_newlines (s : string) : string :=
  match s with
  | String c rest => if is_newline_char c then skip_newlines rest else s
  | EmptyString => s
  end.

(** [NEWLINE+]: at least one line break, then all that follow. *)
Definition newlines1 (s : string) : option string :=
  match s with
  | String c rest => if is_newline_char c then Some (skip_newlines rest) else None
  | EmptyString => None
  end.

(** [body_content]: the text up to the first [BODYEND] (or to the end of
    the input), and the input left. *)
Fixpoint scan (s : string) : string * string :=
  if String.prefix "BODYEND" s
  then (EmptyString, s)
  else match s with
       | EmptyString => (EmptyString, EmptyString)
       | String c rest => let '(content, remaining) := scan rest in (String c content, remaining)
       end.

Definition body_rule (s : string) : option (Pair * string) :=
  match strip_prefix "BODY" s with
  | None => None
  | Some s1 =>
      match newlines1 s1 with
      | None => None
      | Some s2 =>
          let '(content, s3) := scan s2 in
          match strip_prefix "BODYEND" s3 with
          | None => None
          | Some rest =>
              Some (mkPair Rule.body (substring 0 (String.length s - String.length rest) s)
                           [mkPair Rule.body_content content []], rest)
          end
      end
  end.

(** The body text of spec §4.B: the authored text with one
    leading newline and one trailing newline removed. *)
Definition drop_leading_nl (t : string) : string :=
  match t with
  | String c rest => if Ascii.eqb c (Ascii.ascii_of_nat 10) then rest else t
  | EmptyString => t
  end.

Fixpoint drop_trailing_nl (t : string) : string :=
  match t with
  | EmptyString => EmptyString
  | String c EmptyString =>
      if Ascii.eqb c (Ascii.ascii_of_nat 10) then EmptyString else t
  | String c rest => String c (drop_trailing_nl rest)
  end.

Definition trim_body (t : string) : string := drop_trailing_nl (drop_leading_nl t).

(** A text that does not start with a line break. *)
Definition starts_non_newline (t : string) : bool :=
  match t with String c _ => negb (is_newline_char c) | EmptyString => true end.

(** The text [t] holds no [BODYEND] that starts inside it when followed
    by [tail]: the [BODYEND] after [t] is the first one. *)
Fixpoint no_bodyend (t tail : string) : bool :=
  match t with
  | EmptyString => true
  | String c rest =>
      negb (String.prefix "BODYEND" (t ++ tail)) && no_bodyend rest tail
  end.

(* ------------------------------------------------------------------ *)
(** ** [src/domain/assertion.rs]: [impl fmt::Display for AssertionFailure] *)

Definition failure_to_string (f : AssertionFailure) : string :=
  match af_expected f, af_actual f with
  | Some expected, Some actual =>
      af_message f ++ nl ++ "  expected: " ++ expected ++ nl ++ "  actual:   " ++ actual
  | Some expected, None =>
      af_message f ++ nl ++ "  expected: " ++ expected ++ nl ++ "  actual:   <missing>"
  | _, _ => af_message f
  end.

(** The conversion that ends [resolve_path]: the JSON value reached by the
    keys, as a [Value] (the last [match] of [resolve_path]). *)
Definition json_leaf_value (leaf : option JsonValue) : option Value :=
  match leaf with
  | None => None
  | Some (JString s) => Some (VString s)
  | Some (JNumber n) => match as_i64 n with Some i => Some (VNumber i) | None => None end
  | Some (JBool b) => Some (VBool b)
  | Some _ => None
  end.

(** A path segment without a dot. *)
Definition no_dot (k : string) : bool :=
  all_chars (fun c => negb (Ascii.eqb c "."%char)) k.

(* ------------------------------------------------------------------ *)
(** ** [src/domain/http_request.rs]: [HttpRequest::body] *)

Definition HttpRequest_body (self : HttpRequest) (b : option Body) : HttpRequest :=
  {| method := method self; url := url self; headers := headers self; body := b |}.

(* ------------------------------------------------------------------ *)
(** ** [src/main.rs]: [handle_single_request]

    The CLI arguments it reads ([src/cli/args.rs], [Cli]); the fields are
    prefixed to keep them apart from the fields of [HttpRequest]. *)

Record Cli : Type := mkCli {
  arg_file : option string;
  arg_url : option string;
  arg_method : string;
  arg_body : option string;
  arg_json : option string
}.

(** The [anyhow::Error]s of [main.rs]: a message of its own ([bail!],
    [anyhow!]), an error of [Url::parse], an error of [send]. *)
Inductive AppError : Type :=
| Anyhow (msg : string)
| UrlParse (msg : string)
| Http (e : HttpError).

Definition is_some {A} (o : option A) : bool :=
  match o with Some _ => true | None => false end.

Section Single.

Variable transport : ReqwestMethod -> HttpRequest -> Result HttpError RawResponse.
Variable send_elapsed : nat.
(** [serde_json::from_str::<serde_json::Value>], with the error's [Display]. *)
Variable json_from_str : string -> Result string JsonValue.
(** [Url::parse], with the error's [Display]. *)
Variable url_parse : string -> Result string Url.

(** [handle_single_request]: the response it hands to
    [ResponseRenderer::print_response]. *)
Definition handle_single_request (args : Cli) : Result AppError HttpResponse :=
  let url := match arg_url args with Some u => u | None => "http://httpbin.org/get" end in
  if is_some (arg_json args) && is_some (arg_body args)
  then Err (Anyhow "Cannot use both --body and --json options together.")
  else
    let* body_content :=
      match arg_json args with
      | Some json_str =>
          match json_from_str json_str with
          | Ok json_value => Ok (Some (Json json_value))
          | Err e => Err (Anyhow ("Invalid JSON body: " ++ e))
          end
      | None => Ok None
      end in
    let body_content :=
      match arg_body args with Some b => Some (Text b) | None => body_content end in
    let* u := match url_parse url with Ok u => Ok u | Err e => Err (UrlParse e) end in
    let request := HttpRequest_body (HttpRequest_new (arg_method args) u) body_content in
    match send transport send_elapsed request with
    | Ok response => Ok response
    | Err e => Err (Http e)
    end.

End Single.

(* ------------------------------------------------------------------ *)
(** ** [src/renderers/response.rs]: [ResponseRenderer::print_response]

    What is printed, line by line, with the colour each part gets. *)

Inductive Color : Type := Green | Cyan | Yellow | Red | Blue | White.

(** [StatusCode::from_u16(..).unwrap_or(StatusCode::INTERNAL_SERVER_ERROR)]:
    [from_u16] accepts the codes from 100 to 999. *)
Definition status_code_from_u16 (s : N) : N :=
  if N.leb 100 s && N.ltb s 1000 then s else 500.

(** [print_status]. *)
Definition status_color (s : N) : Color :=
  if N.leb 200 s && N.leb s 299 then Green
  else if N.leb 300 s && N.leb s 399 then Cyan
  else if N.leb 400 s && N.leb s 499 then Yellow
  else Red.

(** [print_method]. *)
Definition method_color (m : string) : Color :=
  let u := to_uppercase m in
  if String.eqb u "GET" then Green
  else if String.eqb u "POST" then Yellow
  else if String.eqb u "PUT" || String.eqb u "PATCH" then Blue
  else if String.eqb u "DELETE" then Red
  else White.

Inductive Line : Type :=
| LMethod (m : string) (c : Color)
| LUrl (u : string)
| LStatus (s : N) (c : Color)
| LDuration (d : nat)
| LHeaders (h : HashMap)
| LBody (b : string).

(** [print_response]; [None] is the panic of
    [response.request.clone().unwrap()]. *)
Definition print_response (response : HttpResponse) : option (list Line) :=
  let st := status_code_from_u16 (status response) in
  match request response with
  | None => None
  | Some request =>
      Some ([LMethod (method request) (method_color (method request));
             LUrl (url request);
             LStatus st (status_color st);
             LDuration (duration response);
             LHeaders (resp_headers response)]
            ++ match resp_body response with
               | Some b => [LBody b]
               | None => []
               end)%list
  end.

(* ------------------------------------------------------------------ *)
(** ** [src/renderers/human.rs] and [src/renderers/diff.rs]: the counts of
    [Renderer::summary] *)

(** The [for test in tests] loop of [HumanRenderer::summary]:
    [(passed, failed, total)], [total] the sum of the durations. *)
Definition human_counts (tests : list TestCase) : nat * nat * nat :=
  fold_left (fun acc test =>
               let '(passed, failed, total) := acc in
               match result test with
               | Some (Passed d) => (S passed, failed, total + d)
               | Some (Failed d _) => (passed, S failed, total + d)
               | None => acc
               end) tests (0, 0, 0).

Definition is_passed (t : TestCase) : bool :=
  match result t with Some (Passed _) => true | _ => false end.

(** [DiffRenderer::summary]: [(total, passed, failed)]. *)
Definition diff_counts (tests : list TestCase) : nat * nat * nat :=
  let total := length tests in
  let passed := length (filter is_passed tests) in
  (total, passed, total - passed).

(* ------------------------------------------------------------------ *)
(** ** [src/runner.rs]: [Runner::run_path]

    The file system is the input: a file, a directory with the entries
    [WalkDir] yields without error (in walk order), or neither. *)

Inductive InputPath : Type :=
| IsFile (p : string)
| IsDir (entries : list string)
| Neither (p : string).

(** What [run_path] ends with: ["No tests found"], or the count given to
    [renderer.start] and the test cases given to [renderer.summary]. *)
Inductive RunOutcome : Type :=
| NoTests
| Ran (total_tests : nat) (all_results : list TestCase).

Section Runner.

Variable transport : ReqwestMethod -> HttpRequest -> Result HttpError RawResponse.
Variable send_elapsed : nat.
Variable from_str : string -> option JsonValue.
Variable run_elapsed : nat.
(** Which task of the [k]-th call of [Executor::run_tests] panics. *)
Variable panics : nat -> nat -> bool.
(** [Runner::load_tests_from_file]: reading the file and [AxParser::parse_file]. *)
Variable load_tests_from_file : string -> Result ParseError (list TestCase).
(** [Path::extension]. *)
Variable extension : string -> option string.

Definition is_ax (p : string) : bool :=
  match extension p with Some ext => String.eqb ext "ax" | None => false end.

(** The directory loop: [all_tests.push((entry_path, tests))] for each
    [.ax] entry, stopping at the first error ([?]). *)
Fixpoint load_all (entries : list string)
  : Result ParseError (list (string * list TestCase)) :=
  match entries with
  | [] => Ok []
  | entry_path :: rest =>
      if is_ax entry_path
      then let* tests := load_tests_from_file entry_path in
           let* more := load_all rest in
           Ok ((entry_path, tests) :: more)
      else load_all rest
  end.

(** [for (file_path, tests) in all_tests { let results =
    Executor::run_tests(tests, ..).await; ...; all_results.extend(results); }] *)
Fixpoint run_files (k : nat) (all_tests : list (string * list TestCase)) : list TestCase :=
  match all_tests with
  | [] => []
  | (_, tests) :: rest =>
      (run_tests transport send_elapsed from_str run_elapsed (panics k) tests
       ++ run_files (S k) rest)%list
  end.

Definition run_path (path : InputPath) : Result ParseError RunOutcome :=
  let* all_tests :=
    match path with
    | IsFile p => let* tests := load_tests_from_file p in Ok [(p, tests)]
    | IsDir entries => load_all entries
    | Neither p => Err (Msg (p ++ " is neither a file nor a folder"))
    end in
  match all_tests with
  | [] => Ok NoTests
  | _ =>
      let total_tests := list_sum (map (fun ft => length (snd ft)) all_tests) in
      Ok (Ran total_tests (run_files 0 all_tests))
  end.

End Runner.

(* ------------------------------------------------------------------ *)
(** ** Helpers for the facts below *)

(** The rule of the single child of a [value] pair, if it has one. *)
Definition value_kind (p : Pair) : option Rule.t :=
  match into_inner p with [q] => Some (as_rule q) | _ => None end.

(** The rule of the pair a value literal is parsed from. *)
Definition value_rule (v : Value) : Rule.t :=
  match v with
  | VString _ => Rule.quoted_string
  | VNumber _ => Rule.number
  | VBool _ => Rule.boolean
  end.

(** The [value] pair of the literal a value displays as: the pair
    [parse_value] is given for that literal. *)
Definition value_pair (v : Value) : Pair :=
  mkPair Rule.value (value_to_string v) [mkPair (value_rule v) (value_to_string v) []].

(** The token of each operator in the grammar. *)
Definition operator_text (op : Operator) : string :=
  match op with
  | Eq => "==" | Ne => "!=" | Gt => ">" | Lt => "<" | Gte => ">=" | Lte => "<="
  end.

(** The [expect] pairs of all [expects] children, in order. *)
Definition expects_children (inner : list Pair) : list Pair :=
  flat_map (fun q => if is_rule q Rule.expects then into_inner q else []) inner.

(** A test case whose result is [Failed]. *)
Definition is_failed (t : TestCase) : bool :=
  match result t with Some (Failed _ _) => true | _ => false end.

(** A test case with no result yet. *)
Definition no_result (t : TestCase) : bool :=
  match result t with None => true | Some _ => false end.

(** The duration of a result, [0] without one. *)
Definition result_duration (t : TestCase) : nat :=
  match result t with Some (Passed d) | Some (Failed d _) => d | None => 0 end.

(** The key a header pair gives, if any. *)
Definition header_key (h : Pair) : option string :=
  match into_inner h with k :: _ => Some (as_str k) | [] => None end.

(* ------------------------------------------------------------------ *)
(** ** Inputs used by the statements and their witnesses *)

Definition in_nonempty (a : Assertion) : Prop :=
  match a with In _ vs => vs <> [] | _ => True end.

Definition is_number (v : Value) : bool :=
  match v with VNumber _ => true | _ => false end.

Ltac crush_result H :=
  repeat (simpl in H;
          match type of H with
          | context [match ?x with _ => _ end] => destruct x
          end);
  try discriminate; inversion H; exact I.

(** The file
    [TEST t / GET http://h/ / EXPECT status BETWEEN "a" AND true / END]
    as the pairs of [AxParser::parse(Rule::file, ..)]. *)
Definition between_file : list Pair :=
  let qa := dq ++ "a" ++ dq in
  let expr := "status BETWEEN " ++ qa ++ " AND true" in
  [mkPair Rule.file ("TEST t" ++ nl ++ "GET http://h/" ++ nl ++ nl ++ "EXPECT " ++ expr
                     ++ nl ++ "END")
     [mkPair Rule.test_block ("TEST t" ++ nl ++ "GET http://h/" ++ nl ++ nl ++ "EXPECT "
                              ++ expr ++ nl ++ "END")
        [mkPair Rule.test_name "t" [];
         mkPair Rule.request "GET http://h/"
           [mkPair Rule.method "GET" []; mkPair Rule.url "http://h/" []];
         mkPair Rule.expects ("EXPECT " ++ expr)
           [mkPair Rule.expect ("EXPECT " ++ expr)
              [mkPair Rule.expect_expr expr
                 [mkPair Rule.between_op expr
                    [mkPair Rule.path "status" [];
                     mkPair Rule.value qa [mkPair Rule.quoted_string qa []];
                     mkPair Rule.value "true" [mkPair Rule.boolean "true" []]]]]]]]].

Definition between_request : HttpRequest :=
  {| method := "GET"; url := "http://h/"; headers := []; body := None |}.

Definition not_found_transport : ReqwestMethod -> HttpRequest -> Result HttpError RawResponse :=
  fun _ _ => Ok {| raw_status := 404; raw_headers := []; raw_text := Ok "{}" |}.

Definition down_transport : ReqwestMethod -> HttpRequest -> Result HttpError RawResponse :=
  fun _ _ => Err (TransportError "error sending request for url (http://h/)").

Definition no_json : string -> option JsonValue := fun _ => None.

Definition sample_tc : TestCase :=
  {| name := Some "hello"; tc_request := between_request; response := None;
     assertions := [Binary "status" Eq (VNumber 200)]; result := None |}.

Definition empty_response : HttpResponse := mkHttpResponse None 0 404 [] None.

Definition between_tc : TestCase :=
  {| name := Some "t"; tc_request := between_request; response := None;
     assertions := [Between "status" (VString "a") (VBool true)]; result := None |}.

Definition json_body : string := nl ++ "{}" ++ nl.

Definition post_request_head : list Pair :=
  [mkPair Rule.method "POST" []; mkPair Rule.url "http://h/" []].

Definition post_request : HttpRequest :=
  {| method := "POST"; url := "http://h/"; headers := []; body := Some (Text "{}") |}.

(** The body [{"user":{"age":30},"id":9223372036854775808}] and the JSON
    value it parses to. *)
Definition user_text : string :=
  "{" ++ dq ++ "user" ++ dq ++ ":{" ++ dq ++ "age" ++ dq ++ ":30}," ++ dq ++ "id" ++ dq
  ++ ":9223372036854775808}".

Definition user_json : JsonValue :=
  JObject [("user", JObject [("age", JNumber (PosInt 30))]);
           ("id", JNumber (PosInt 9223372036854775808))].

Definition user_from_str : string -> option JsonValue :=
  fun s => if String.eqb s user_text then Some user_json else None.

Definition user_response : HttpResponse := mkHttpResponse None 0 200 [] (Some user_text).

(** The header pair [k: v]. *)
Definition header_pair (k v : string) : Pair :=
  mkPair Rule.header (k ++ ": " ++ v)
    [mkPair Rule.header_name k []; mkPair Rule.header_value v []].

(** The test block of [between_file]. *)
Definition between_block : Pair :=
  match between_file with
  | fp :: _ => match into_inner fp with b :: _ => b | [] => fp end
  | [] => mkPair Rule.file "" []
  end.

(** A request block with a url and no method. *)
Definition no_method_pair : Pair :=
  mkPair Rule.request "http://h/" [mkPair Rule.url "http://h/" []].

Definition status_404_tc : TestCase :=
  {| name := Some "nf"; tc_request := between_request; response := None;
     assertions := [Binary "status" Eq (VNumber 404)]; result := None |}.

(** A not yet run test case, a failed one and a passed one. *)
Definition mixed_tests : list TestCase :=
  [sample_tc; run not_found_transport 0 no_json 7 sample_tc;
   run not_found_transport 0 no_json 7 status_404_tc].

(** [serde_json::from_str] accepting only [{}], and a [Url::parse] accepting
    every text. *)
Definition json_ok : string -> Result string JsonValue :=
  fun s => if String.eqb s "{}" then Ok (JObject []) else Err "EOF while parsing an object".

Definition url_ok : string -> Result string Url := fun s => Ok s.

Definition both_args : Cli := mkCli None None "get" (Some "x") (Some "{}").
Definition body_args : Cli := mkCli None (Some "http://h/") "post" (Some "{}") None.
Definition json_args : Cli := mkCli None (Some "http://h/") "post" None (Some "{}").

(* ================================================================== *)
(** * Facts *)

Lemma value_eqb_spec : forall a b, value_eqb a b = true <-> a = b.
Proof.
  intros [x|x|x] [y|y|y]; simpl; split; intro H; try discriminate;
    try (inversion H; subst).
  - apply String.eqb_eq in H; now subst.
  - apply String.eqb_refl.
  - apply Z.eqb_eq in H; now subst.
  - apply Z.eqb_refl.
  - apply Bool.eqb_prop in H; now subst.
  - apply Bool.eqb_reflx.
Qed.

Lemma value_eqb_false : forall a b, value_eqb a b = false <-> a <> b.
Proof.
  intros a b. rewrite <- value_eqb_spec. destruct (value_eqb a b); intuition congruence.
Qed.

(** Every failure [check] reports carries the path of its assertion. *)
Lemma check_err_path : forall from_str a r f,
  check from_str a r = Err f -> af_path f = assertion_path a.
Proof.
  intros from_str a r f H.
  destruct a; simpl in H;
    destruct (resolve_path from_str r _) as [v|];
    try (inversion H; reflexivity);
    repeat match goal with
           | H : context [if ?b then _ else _] |- _ => destruct b
           | H : context [match ?v with VString _ => _ | VNumber _ => _ | VBool _ => _ end] |- _ =>
               destruct v
           end;
    inversion H; reflexivity.
Qed.

Lemma check_all_app : forall from_str resp asserts acc,
  fold_left (fun errors assertion =>
               match check from_str assertion resp with
               | Err err => (errors ++ [err])%list
               | Ok _ => errors
               end) asserts acc
  = (acc ++ failures from_str resp asserts)%list.
Proof.
  intros from_str resp asserts. induction asserts as [|a asserts IH]; intro acc; simpl.
  - now rewrite app_nil_r.
  - rewrite IH. destruct (check from_str a resp); simpl.
    + reflexivity.
    + now rewrite <- app_assoc.
Qed.

Lemma check_all_failures : forall from_str resp asserts,
  check_all from_str resp asserts = failures from_str resp asserts.
Proof. intros. unfold check_all. now rewrite check_all_app. Qed.

Lemma failures_paths : forall from_str resp asserts f,
  List.In f (failures from_str resp asserts) ->
  exists a, List.In a asserts /\ assertion_path a = af_path f.
Proof.
  intros from_str resp asserts f. induction asserts as [|a asserts IH]; simpl; [tauto|].
  intro H. apply in_app_or in H as [H|H].
  - destruct (check from_str a resp) eqn:E; simpl in H; [contradiction|].
    destruct H as [<-|[]]. exists a. split; [now left|].
    symmetry. now apply (check_err_path from_str a resp).
  - destruct (IH H) as [a' [Ha' Hp]]. exists a'. split; [now right|exact Hp].
Qed.

Lemma join_all_app : forall transport se fs re panics tcs i acc,
  fold_left (fun results handle =>
               match handle with
               | Ok test_case => (results ++ [test_case])%list
               | Err _ => results
               end) (spawn_all transport se fs re panics i tcs) acc
  = (acc ++ map (run transport se fs re)
                (map snd (filter (fun it => negb (panics (fst it)))
                                 (combine (seq i (length tcs)) tcs))))%list.
Proof.
  intros transport se fs re panics tcs. induction tcs as [|tc tcs IH]; intros i acc; simpl.
  - now rewrite app_nil_r.
  - destruct (panics i); simpl; rewrite IH; [reflexivity|].
    now rewrite <- app_assoc.
Qed.

Lemma survivors_all : forall {A} panics (tcs : list A) i,
  (forall j, panics j = false) ->
  map snd (filter (fun it => negb (panics (fst it))) (combine (seq i (length tcs)) tcs))
  = tcs.
Proof.
  intros A panics tcs. induction tcs as [|tc tcs0 IH]; intros i H; simpl; [reflexivity|].
  rewrite H. simpl. now rewrite IH.
Qed.

Lemma survivors_in : forall {A} panics (tcs : list A) i tc,
  List.In tc (map snd (filter (fun it => negb (panics (fst it)))
                              (combine (seq i (length tcs)) tcs))) ->
  List.In tc tcs.
Proof.
  intros A panics tcs. induction tcs as [|t tcs0 IH]; intros i tc H; simpl in *; [exact H|].
  destruct (panics i); simpl in H.
  - right. eapply IH. exact H.
  - destruct H as [H|H]; [now left|right; eapply IH; exact H].
Qed.

(** C1: a [Binary] assertion with [Ne] passes exactly when the path
    resolves to a value different from the expected one; on a path that
    does not resolve it fails, with no actual value. *)
Theorem check_ne_iff_resolved_differs : forall from_str r p v,
  (check from_str (Binary p Ne v) r = Ok tt <->
     exists a, resolve_path from_str r p = Some a /\ a <> v) /\
  (resolve_path from_str r p = None ->
     exists f, check from_str (Binary p Ne v) r = Err f /\ af_actual f = None).
Proof.
  intros from_str r p v. simpl. split.
  - destruct (resolve_path from_str r p) as [a|].
    + simpl. destruct (value_eqb a v) eqn:E; simpl.
      * apply value_eqb_spec in E. subst. split; [discriminate|].
        intros [a' [Ha' Hne]]. inversion Ha'; subst. contradiction.
      * apply value_eqb_false in E. split; [intros _; now exists a|reflexivity].
    + split; [discriminate|]. intros [a [Ha _]]. discriminate.
  - intro H. rewrite H. eexists. split; reflexivity.
Qed.

(** C7: [In{p, [v]}] passes exactly when [Binary{p, Eq, v}] passes. *)
Theorem check_in_singleton_eq : forall from_str r p v,
  check from_str (In p [v]) r = Ok tt <-> check from_str (Binary p Eq v) r = Ok tt.
Proof.
  intros from_str r p v. simpl.
  destruct (resolve_path from_str r p) as [a|]; [|split; discriminate].
  simpl. rewrite orb_false_r.
  destruct (value_eqb a v); simpl; split; intro H; first [reflexivity | discriminate].
Qed.

(** C9: [TestCase::run] changes only [response] and [result]. *)
Theorem run_frame : forall transport se fs re tc,
  name (run transport se fs re tc) = name tc /\
  tc_request (run transport se fs re tc) = tc_request tc /\
  assertions (run transport se fs re tc) = assertions tc.
Proof.
  intros transport se fs re tc. unfold run.
  destruct (send transport se (tc_request tc)); simpl; auto.
Qed.

(** C5: when the send fails with [e], the result is [Failed] with the
    single failure on path ["request"] whose message is [e.to_string()]
    and which has neither expected nor actual value; no assertion is
    looked at: the result is the same whatever the assertions. *)
Theorem run_transport_error : forall transport se fs re tc e,
  send transport se (tc_request tc) = Err e ->
  result (run transport se fs re tc) =
    Some (Failed re [{| af_path := "request"; af_expected := None; af_actual := None;
                        af_message := http_error_to_string e |}]) /\
  response (run transport se fs re tc) = response tc /\
  (forall asserts,
     result (run transport se fs re
               {| name := name tc; tc_request := tc_request tc; response := response tc;
                  assertions := asserts; result := result tc |})
     = result (run transport se fs re tc)).
Proof.
  intros transport se fs re tc e H. unfold run. simpl. rewrite H. simpl.
  repeat split.
Qed.

(** C6: every test case [run_tests] returns is the run of an input test
    case and has a result; a [Failed] result has at least one failure,
    every failure is on the path of one of its assertions or on
    ["request"], and after a successful send the failures are those of
    the failing assertions, one each, in authored order. *)
Theorem run_tests_results : forall transport se fs re panics tcs tc',
  List.In tc' (run_tests transport se fs re panics tcs) ->
  exists tc, List.In tc tcs /\ tc' = run transport se fs re tc /\
    result tc' <> None /\
    (forall d errs, result tc' = Some (Failed d errs) ->
       errs <> [] /\
       Forall (fun f => af_path f = "request" \/
                        exists a, List.In a (assertions tc') /\ assertion_path a = af_path f)
              errs /\
       (forall resp, send transport se (tc_request tc) = Ok resp ->
          response tc' = Some resp /\ errs = failures fs resp (assertions tc))).
Proof.
  intros transport se fs re panics tcs tc' Hin.
  unfold run_tests, join_all in Hin. rewrite join_all_app in Hin. simpl in Hin.
  apply in_map_iff in Hin as [tc [<- Htc]].
  exists tc. split; [eapply survivors_in; exact Htc|]. split; [reflexivity|].
  unfold run. destruct (send transport se (tc_request tc)) as [resp|e] eqn:Hs; simpl.
  - rewrite check_all_failures.
    destruct (failures fs resp (assertions tc)) as [|f fs'] eqn:Hf.
    + split; [discriminate|]. intros d errs Hr. discriminate.
    + split; [discriminate|]. intros d errs Hr. inversion Hr; subst. split; [discriminate|].
      split.
      * apply Forall_forall. intros f' Hf'. right.
        rewrite <- Hf in Hf'. eapply failures_paths. exact Hf'.
      * intros resp' Hresp. inversion Hresp; subst. auto.
  - split; [discriminate|]. intros d errs Hr. inversion Hr; subst.
    split; [discriminate|]. split.
    + constructor; [now left|constructor].
    + intros resp Hresp. discriminate.
Qed.

(** C10: [run_tests] returns the runs of the test cases whose task did
    not panic, in input order; with no panic, the runs of all of them. *)
Theorem run_tests_order : forall transport se fs re panics tcs,
  run_tests transport se fs re panics tcs
    = map (run transport se fs re) (survivors panics tcs) /\
  ((forall i, panics i = false) ->
   run_tests transport se fs re panics tcs = map (run transport se fs re) tcs).
Proof.
  intros transport se fs re panics tcs.
  assert (E : run_tests transport se fs re panics tcs
              = map (run transport se fs re) (survivors panics tcs)).
  { unfold run_tests, join_all, survivors. now rewrite join_all_app. }
  split; [exact E|]. intro H. rewrite E. unfold survivors. now rewrite survivors_all.
Qed.

(** ** The permits of [Executor::run_tests] *)

Section SchedFacts.
Local Open Scope list_scope.
Import Sched.

Lemma sched_phase_eq_dec : forall x y : Phase, {x = y} + {x <> y}.
Proof. decide equality. Qed.

Lemma sched_in_flight_split : forall pre x post,
  length (filter is_running (pre ++ x :: post))
  = length (filter is_running pre) + (if is_running x then 1 else 0)
    + length (filter is_running post).
Proof.
  intros pre x post. rewrite filter_app, length_app. simpl.
  destruct (is_running x); simpl; lia.
Qed.

Lemma sched_in_flight_repeat : forall n,
  length (filter is_running (repeat Unspawned n)) = 0.
Proof. induction n; simpl; auto. Qed.

Lemma sched_inv_init : forall N n, inv N n (init N n).
Proof.
  intros N n. unfold inv, init, in_flight; simpl.
  rewrite sched_in_flight_repeat, repeat_length. lia.
Qed.

Lemma sched_inv_step : forall N n s s', inv N n s -> step s s' -> inv N n s'.
Proof.
  intros N n s s' [Hp [Hl Hc]] Hs. unfold inv, in_flight in *.
  inversion Hs; subst; simpl in *;
    try (repeat rewrite sched_in_flight_split in *; repeat rewrite length_app in *;
         simpl in *; lia).
  match goal with
  | H : nth_error ?l ?k = Some _ |- _ =>
      assert (k < length l) by (apply nth_error_Some; congruence)
  end; lia.
Qed.

Lemma sched_reachable_inv : forall N n s, reachable N n s -> inv N n s.
Proof.
  intros N n s H. induction H.
  - apply sched_inv_init.
  - eapply sched_inv_step; eassumption.
Qed.

Lemma sched_measure_split : forall pre x post,
  list_sum (map weight (pre ++ x :: post))
  = list_sum (map weight pre) + weight x + list_sum (map weight post).
Proof.
  intros pre x post. rewrite map_app, list_sum_app. simpl. lia.
Qed.

Lemma sched_step_measure : forall s s', step s s' -> measure s' < measure s.
Proof.
  intros s s' Hs. unfold measure.
  inversion Hs; subst; simpl;
    try (rewrite !sched_measure_split, !length_app; simpl; lia).
  match goal with
  | H : nth_error ?l ?k = Some _ |- _ =>
      assert (k < length l) by (apply nth_error_Some; congruence)
  end; lia.
Qed.

Lemma sched_acc : forall s, Acc (fun s' s => step s s') s.
Proof.
  intro s. remember (measure s) as m eqn:Hm. revert s Hm.
  induction m as [m IH] using (well_founded_induction Wf_nat.lt_wf).
  intros s Hm. constructor. intros s' Hs.
  apply (IH (measure s')); [subst; now apply sched_step_measure|reflexivity].
Qed.

Lemma sched_first_unspawned : forall ts,
  existsb is_unspawned ts = true ->
  exists pre post, ts = pre ++ Unspawned :: post
    /\ forallb (fun x => negb (is_unspawned x)) pre = true.
Proof.
  induction ts as [|t ts IH]; simpl; [discriminate|]. intro H.
  destruct t; simpl in H.
  - exists [], ts. auto.
  - destruct (IH H) as [pre [post [-> Hf]]]. exists (Waiting :: pre), post. auto.
  - destruct (IH H) as [pre [post [-> Hf]]]. exists (Running :: pre), post. auto.
  - destruct (IH H) as [pre [post [-> Hf]]]. exists (Finished :: pre), post. auto.
Qed.

Lemma sched_none_unspawned : forall ts,
  existsb is_unspawned ts = false -> forallb (fun x => negb (is_unspawned x)) ts = true.
Proof.
  induction ts as [|t ts IH]; simpl; auto. intro H.
  apply orb_false_iff in H as [H1 H2]. rewrite H1. simpl. auto.
Qed.

Lemma sched_in_flight_pos : forall ts,
  List.In Running ts -> 0 < length (filter is_running ts).
Proof.
  intros ts H. apply in_split in H as [pre [post ->]].
  rewrite sched_in_flight_split. simpl. lia.
Qed.

Lemma sched_final_dec : forall s, final s \/ ~ final s.
Proof. intro s. unfold final. destruct (Nat.eq_dec (collected s) (length (tasks s))); auto. Qed.

Lemma sched_progress : forall N n s,
  1 <= N -> inv N n s -> ~ final s -> exists s', step s s'.
Proof.
  intros N n [p ts c] HN [Hp [Hl Hc]] Hf. unfold final, in_flight in *; simpl in *.
  destruct (existsb is_unspawned ts) eqn:Eu.
  { apply sched_first_unspawned in Eu as [pre [post [-> Hpre]]].
    eexists. now apply step_spawn. }
  destruct (List.In_dec sched_phase_eq_dec Running ts) as [Hr|Hr].
  { apply in_split in Hr as [pre [post ->]]. eexists. apply step_release. }
  destruct (List.In_dec sched_phase_eq_dec Waiting ts) as [Hw|Hw].
  { assert (length (filter is_running ts) = 0) as H0.
    { destruct (length (filter is_running ts)) eqn:E; [reflexivity|].
      exfalso. assert (exists x, List.In x (filter is_running ts)) as [x Hx].
      { destruct (filter is_running ts) as [|x l]; [discriminate|]. exists x. now left. }
      apply filter_In in Hx as [Hx Hrx]. destruct x; try discriminate. contradiction. }
    destruct p as [|p]; [lia|].
    apply in_split in Hw as [pre [post ->]]. eexists. apply step_acquire. }
  assert (c < length ts) as Hlt by lia.
  apply nth_error_Some in Hlt. destruct (nth_error ts c) as [x|] eqn:Ex; [|congruence].
  pose proof (nth_error_In _ _ Ex) as Hx.
  destruct x.
  - exfalso. assert (existsb is_unspawned ts = true) as Hu.
    { apply existsb_exists. exists Unspawned. auto. }
    congruence.
  - contradiction.
  - contradiction.
  - eexists. apply step_collect; [now apply sched_none_unspawned|exact Ex].
Qed.

End SchedFacts.

(** C8: with [max_concurrency >= 1] permits, at every point of a run of
    [run_tests] on [n] test cases at most [max_concurrency] units are in
    flight (between acquiring and releasing a permit); no run has
    infinitely many steps, and a run only stops once every handle has
    been awaited, i.e. [run_tests] has returned. *)
Theorem executor_bounded_and_terminates : forall max_concurrency n,
  1 <= max_concurrency ->
  (forall s, Sched.reachable max_concurrency n s -> Sched.in_flight s <= max_concurrency) /\
  (forall s, Sched.reachable max_concurrency n s ->
     Sched.final s \/ exists s', Sched.step s s') /\
  Acc (fun s' s => Sched.step s s') (Sched.init max_concurrency n).
Proof.
  intros N n HN. split; [|split].
  - intros s Hs. destruct (sched_reachable_inv N n s Hs) as [Hp _]. lia.
  - intros s Hs. destruct (sched_final_dec s) as [Hf|Hf]; [now left|right].
    eapply sched_progress; [exact HN|apply sched_reachable_inv; exact Hs|exact Hf].
  - apply sched_acc.
Qed.

(** ** Strings and the [body] rule *)

Lemma prefix_nil : forall s, String.prefix "" s = true.
Proof. now destruct s. Qed.

Lemma prefix_app : forall p s, String.prefix p (p ++ s) = true.
Proof.
  induction p as [|c p IH]; intro s; simpl; [now destruct s|].
  destruct (ascii_dec c c); [apply IH|contradiction].
Qed.

Lemma substring_app_r : forall p s n,
  substring (String.length p) n (p ++ s) = substring 0 n s.
Proof. induction p as [|c p IH]; intros s n; simpl; auto. Qed.

Lemma substring_full : forall s, substring 0 (String.length s) s = s.
Proof. induction s as [|c s IH]; simpl; [reflexivity|now rewrite IH]. Qed.

Lemma length_app_string : forall p s,
  String.length (p ++ s) = String.length p + String.length s.
Proof. induction p as [|c p IH]; intro s; simpl; auto. Qed.

Lemma strip_prefix_app : forall p s, strip_prefix p (p ++ s) = Some s.
Proof.
  intros p s. unfold strip_prefix. rewrite prefix_app, length_app_string.
  replace (String.length p + String.length s - String.length p) with (String.length s)
    by lia.
  now rewrite substring_app_r, substring_full.
Qed.

Lemma no_bodyend_tail : forall c t tail,
  no_bodyend (String c t) tail = true -> no_bodyend t tail = true.
Proof. intros c t tail H. simpl in H. now apply andb_prop in H as [_ H]. Qed.

(** [body_content] stops right before the first [BODYEND], keeping all
    that comes before it. *)
Lemma scan_spec : forall t rest,
  no_bodyend t ("BODYEND" ++ rest) = true ->
  scan (t ++ "BODYEND" ++ rest) = (t, "BODYEND" ++ rest).
Proof.
  induction t as [|c t IH]; intros rest H.
  - destruct rest; reflexivity.
  - cbn [no_bodyend] in H. apply andb_prop in H as [H1 H2]. apply negb_true_iff in H1.
    change (String c t ++ "BODYEND" ++ rest) with (String c (t ++ "BODYEND" ++ rest)) in H1 |- *.
    cbn [scan]. rewrite H1. rewrite (IH rest H2). reflexivity.
Qed.

Lemma skip_newlines_app : forall nls x,
  all_chars is_newline_char nls = true -> skip_newlines (nls ++ x) = skip_newlines x.
Proof.
  induction nls as [|c nls IH]; intros x H; [reflexivity|].
  cbn [all_chars] in H. apply andb_prop in H as [Hc H].
  cbn [append skip_newlines]. rewrite Hc. now apply IH.
Qed.

Lemma skip_newlines_stop : forall t tail,
  starts_non_newline t = true -> starts_non_newline tail = true ->
  skip_newlines (t ++ tail) = t ++ tail.
Proof.
  intros [|c t] tail Ht Htl.
  - destruct tail as [|c tl]; [reflexivity|].
    change ("" ++ String c tl) with (String c tl). cbn [skip_newlines].
    cbn [starts_non_newline] in Htl. apply negb_true_iff in Htl. now rewrite Htl.
  - cbn [append skip_newlines]. cbn [starts_non_newline] in Ht.
    apply negb_true_iff in Ht. now rewrite Ht.
Qed.

(** [NEWLINE+] after [BODY] takes every line break before the text. *)
Lemma newlines1_spec : forall nls t tail,
  nls <> EmptyString -> all_chars is_newline_char nls = true ->
  starts_non_newline t = true -> starts_non_newline tail = true ->
  newlines1 (nls ++ t ++ tail) = Some (t ++ tail).
Proof.
  intros [|c nls] t tail Hne Hn Ht Htl; [congruence|].
  cbn [all_chars] in Hn. apply andb_prop in Hn as [Hc Hn].
  cbn [append newlines1]. rewrite Hc. f_equal.
  rewrite skip_newlines_app by exact Hn. now apply skip_newlines_stop.
Qed.

Lemma body_rule_spec : forall nls t rest,
  nls <> EmptyString -> all_chars is_newline_char nls = true ->
  starts_non_newline t = true -> no_bodyend t ("BODYEND" ++ rest) = true ->
  exists span, body_rule ("BODY" ++ nls ++ t ++ "BODYEND" ++ rest)
    = Some (mkPair Rule.body span [mkPair Rule.body_content t []], rest).
Proof.
  intros nls t rest Hne Hn Ht Hb. unfold body_rule. rewrite strip_prefix_app.
  rewrite (newlines1_spec nls t ("BODYEND" ++ rest) Hne Hn Ht eq_refl).
  rewrite (scan_spec t rest Hb), strip_prefix_app. eexists. reflexivity.
Qed.

(** ** Parsing requests *)

Lemma request_loop_app : forall url_parse st pre p,
  request_loop url_parse st (pre ++ [p])%list
  = bind (request_loop url_parse st pre) (fun st' => request_loop url_parse st' [p]).
Proof.
  intros url_parse st pre p. revert st.
  induction pre as [|q pre IH]; intro st; [reflexivity|].
  simpl. destruct (as_rule q); try apply IH.
  - destruct (url_parse (as_str q)); [apply IH|reflexivity].
  - destruct (collect_headers (rp_headers st) (into_inner q)); [apply IH|reflexivity].
Qed.

(** C4 (counterexample): [BODY], a newline, [{}], a newline and
    [BODYEND] give the body ["{}\n"], not the text with one leading and one
    trailing newline removed: [NEWLINE+] takes the leading newline and
    [body_content] keeps the one before [BODYEND]. *)
Lemma body_trailing_newline_kept :
  ~ (forall url_parse authored rest span pre r,
       no_bodyend authored ("BODYEND" ++ rest) = true ->
       exists bp, body_rule ("BODY" ++ authored ++ "BODYEND" ++ rest) = Some (bp, rest) /\
         (parse_http_request url_parse (mkPair Rule.request span (pre ++ [bp])%list) = Ok r ->
          body r = Some (Text (trim_body authored)))).
Proof.
  intro H.
  destruct (H (fun s => Some s) json_body "" "POST http://h/" post_request_head
              {| method := "POST"; url := "http://h/"; headers := [];
                 body := Some (Text ("{}" ++ nl)) |} eq_refl) as [bp [Hb Himp]].
  vm_compute in Hb. injection Hb as <-.
  specialize (Himp eq_refl). vm_compute in Himp. discriminate.
Qed.

(** C4 (amended): the [BODY ... BODYEND] section of a request, written as
    [BODY], the line breaks [nls] (at least one), the text [t] (which does
    not start with a line break) and the first [BODYEND], becomes the
    request body [Text(t)]: every line break right after [BODY] is dropped,
    and [t] is kept verbatim, a newline before [BODYEND] included. *)
Theorem body_text_after_line_breaks : forall url_parse nls t rest span pre r,
  nls <> EmptyString -> all_chars is_newline_char nls = true ->
  starts_non_newline t = true -> no_bodyend t ("BODYEND" ++ rest) = true ->
  exists bp, body_rule ("BODY" ++ nls ++ t ++ "BODYEND" ++ rest) = Some (bp, rest) /\
    (parse_http_request url_parse (mkPair Rule.request span (pre ++ [bp])%list) = Ok r ->
     body r = Some (Text t)).
Proof.
  intros url_parse nls t rest span pre r Hne Hn Ht Hb.
  destruct (body_rule_spec nls t rest Hne Hn Ht Hb) as [bspan Hr].
  eexists. split; [exact Hr|]. intro Hp.
  unfold parse_http_request in Hp. cbn [into_inner] in Hp.
  rewrite request_loop_app in Hp.
  destruct (request_loop url_parse _ pre) as [st|e]; simpl in Hp; [|discriminate].
  destruct (rp_url st); inversion Hp; reflexivity.
Qed.

(** [call_request] rejects, before any call to the transport, every
    request whose method, upper-cased, is not in the whitelist. *)
Lemma reqwest_method_upper : forall m x,
  reqwest_method m = Some x -> reqwest_method (to_uppercase m) = Some x.
Proof.
  intros m x H. unfold reqwest_method in H.
  destruct (String.eqb_spec m "GET"); [subst; exact H|].
  destruct (String.eqb_spec m "POST"); [subst; exact H|].
  destruct (String.eqb_spec m "PUT"); [subst; exact H|].
  destruct (String.eqb_spec m "PATCH"); [subst; exact H|].
  destruct (String.eqb_spec m "DELETE"); [subst; exact H|].
  destruct (String.eqb_spec m "HEAD"); [subst; exact H|].
  destruct (String.eqb_spec m "OPTIONS"); [subst; exact H|].
  discriminate.
Qed.

Lemma call_request_rejects_unlisted : forall transport r,
  reqwest_method (to_uppercase (method r)) = None ->
  call_request transport r = Err (InvalidMethod (method r)).
Proof.
  intros transport r H. unfold call_request.
  destruct (reqwest_method (method r)) as [x|] eqn:E; [|reflexivity].
  apply reqwest_method_upper in E. congruence.
Qed.

(** ** The assertions a parse produces *)

Lemma collect_values_length : forall inner acc vs,
  collect_values acc inner = Ok vs ->
  length vs = length acc + length (filter (fun p => is_rule p Rule.value) inner).
Proof.
  induction inner as [|p inner IH]; intros acc vs H; simpl in H.
  - inversion H; subst. simpl. lia.
  - simpl. destruct (is_rule p Rule.value).
    + destruct (parse_value p) as [v|e]; simpl in H; [|discriminate].
      apply IH in H. rewrite H, length_app. simpl. lia.
    + apply IH in H. exact H.
Qed.

Lemma wf_value_rule : forall p, wf_value p = true -> is_rule p Rule.value = true.
Proof. intros p H. unfold wf_value in H. now apply andb_prop in H as [H _]. Qed.

Lemma parse_assertion_nonempty : forall e a,
  match into_inner e with [op] => wf_assertion_op op | _ => false end = true ->
  parse_assertion e = Ok a -> in_nonempty a.
Proof.
  intros e a Hw H. unfold parse_assertion in H.
  destruct (into_inner e) as [|op [|x rest]]; try discriminate. simpl in H.
  unfold wf_assertion_op in Hw.
  destruct (as_rule op); try discriminate.
  - unfold parse_binary_op, bind, unwrap, next in H. crush_result H.
  - unfold parse_in_op, bind, unwrap, next in H.
    destruct (into_inner op) as [|pa vs]; [discriminate|].
    destruct (collect_values [] vs) as [l|err] eqn:Ec; [|discriminate].
    inversion H; subst. simpl.
    apply collect_values_length in Ec. simpl in Ec.
    apply andb_prop in Hw as [Hw Hall]. apply andb_prop in Hw as [_ Hne].
    destruct vs as [|v vs]; [discriminate|].
    simpl in Hall. apply andb_prop in Hall as [Hv _]. apply wf_value_rule in Hv.
    simpl in Ec. rewrite Hv in Ec. simpl in Ec.
    intro Hl. subst l. simpl in Ec. discriminate.
  - unfold parse_between_op, bind, unwrap, next in H. crush_result H.
  - unfold parse_exists_op, bind, unwrap, next in H. crush_result H.
  - unfold parse_unary_path in H. inversion H. exact I.
Qed.

Lemma expects_loop_nonempty : forall es acc asserts,
  Forall in_nonempty acc -> forallb wf_expect es = true ->
  expects_loop acc es = Ok asserts -> Forall in_nonempty asserts.
Proof.
  induction es as [|ex es IH]; intros acc asserts Hacc Hw H; simpl in H.
  - inversion H; subst. exact Hacc.
  - simpl in Hw. apply andb_prop in Hw as [Hex Hw].
    unfold wf_expect in Hex. apply andb_prop in Hex as [_ Hex].
    destruct (into_inner ex) as [|e [|y rest]]; try discriminate.
    apply andb_prop in Hex as [_ He]. simpl in H.
    destruct (parse_assertion e) as [a|err] eqn:Ea; simpl in H; [|discriminate].
    apply (IH (acc ++ [a])%list); [|exact Hw|exact H].
    apply Forall_app. split; [exact Hacc|].
    constructor; [|constructor]. eapply parse_assertion_nonempty; eassumption.
Qed.

Lemma block_loop_nonempty : forall url_parse inner nm req acc res,
  Forall in_nonempty acc ->
  forallb (fun q => if is_rule q Rule.expects then forallb wf_expect (into_inner q)
                    else true) inner = true ->
  block_loop url_parse nm req acc inner = Ok res -> Forall in_nonempty (snd res).
Proof.
  intros url_parse. induction inner as [|q inner IH]; intros nm req acc res Hacc Hw H.
  - simpl in H. inversion H; subst. exact Hacc.
  - simpl in Hw. apply andb_prop in Hw as [Hq Hw]. simpl in H.
    destruct (as_rule q) eqn:Er; try (eapply IH; eassumption).
    + destruct (parse_http_request url_parse q); simpl in H; [|discriminate].
      eapply IH; eassumption.
    + unfold is_rule in Hq. rewrite Er in Hq. simpl in Hq.
      destruct (expects_loop acc (into_inner q)) as [acc'|e] eqn:Ee; simpl in H;
        [|discriminate].
      eapply IH; [|exact Hw|exact H].
      eapply expects_loop_nonempty; eassumption.
Qed.

Lemma parse_test_block_nonempty : forall url_parse p tc,
  wf_test_block p = true -> parse_test_block url_parse p = Ok tc ->
  Forall in_nonempty (assertions tc).
Proof.
  intros url_parse p tc Hw H. unfold wf_test_block in Hw.
  apply andb_prop in Hw as [Hw _]. apply andb_prop in Hw as [_ Hw].
  unfold parse_test_block in H.
  destruct (block_loop url_parse None None [] (into_inner p)) as [res|e] eqn:Eb;
    simpl in H; [|discriminate].
  destruct res as [[nm req] asserts]. destruct req; [|discriminate].
  inversion H; subst. simpl.
  apply (block_loop_nonempty url_parse (into_inner p) None None [] (nm, Some h, asserts));
    [constructor|exact Hw|exact Eb].
Qed.

Lemma file_loop_nonempty : forall url_parse inner acc tcs,
  Forall (fun tc => Forall in_nonempty (assertions tc)) acc ->
  forallb (fun q => if is_rule q Rule.test_block then wf_test_block q else true) inner
    = true ->
  file_loop url_parse acc inner = Ok tcs ->
  Forall (fun tc => Forall in_nonempty (assertions tc)) tcs.
Proof.
  intros url_parse. induction inner as [|q inner IH]; intros acc tcs Hacc Hw H; simpl in H.
  - inversion H; subst. exact Hacc.
  - simpl in Hw. apply andb_prop in Hw as [Hq Hw].
    destruct (is_rule q Rule.test_block).
    + destruct (parse_test_block url_parse q) as [tc|e] eqn:Et; simpl in H; [|discriminate].
      apply (IH (acc ++ [tc])%list); [|exact Hw|exact H].
      apply Forall_app. split; [exact Hacc|].
      constructor; [|constructor]. eapply parse_test_block_nonempty; eassumption.
    + eapply IH; eassumption.
Qed.

Lemma check_between_non_number : forall from_str r p lo hi,
  is_number lo = false \/ is_number hi = false ->
  exists f, check from_str (Between p lo hi) r = Err f.
Proof.
  intros from_str r p lo hi H. simpl.
  destruct (resolve_path from_str r p) as [a|]; [|eexists; reflexivity].
  destruct a, lo, hi; simpl in H; try (eexists; reflexivity);
    destruct H; discriminate.
Qed.

(** C3 (counterexample): the file above parses, and its [Between]
    assertion has a [String] and a [Bool] endpoint. *)
Lemma parsed_between_not_numeric :
  ~ (forall url_parse pairs tcs,
       wf_file pairs = true -> parse_file url_parse pairs = Ok tcs ->
       Forall (fun tc =>
                 Forall (fun a => match a with
                                  | In _ vs => vs <> []
                                  | Between _ lo hi => is_number lo = true /\ is_number hi = true
                                  | _ => True
                                  end) (assertions tc)) tcs).
Proof.
  intro H.
  specialize (H (fun s => Some s) between_file
                [{| name := Some "t"; tc_request := between_request; response := None;
                    assertions := [Between "status" (VString "a") (VBool true)];
                    result := None |}] eq_refl eq_refl).
  inversion H as [|tc tcs Htc _]; subst.
  inversion Htc as [|a asserts Ha _]; subst.
  destruct Ha as [Hlo _]. discriminate.
Qed.

Lemma parse_value_kind : forall p v,
  wf_value p = true -> parse_value p = Ok v -> value_kind p = Some (value_rule v).
Proof.
  intros [r s inner] v Hw Hp. unfold wf_value in Hw. apply andb_prop in Hw as [Hr Hw].
  unfold is_rule in Hr. cbn [as_rule] in Hr. apply Rule.internal_t_dec_bl in Hr. subst r.
  cbn [into_inner] in Hw. destruct inner as [|[rq sq iq] [|x l]]; try discriminate.
  unfold value_kind. cbn [into_inner as_rule].
  destruct rq; simpl in Hw, Hp; try discriminate.
  - destruct (Nat.ltb _ _); inversion Hp; reflexivity.
  - destruct (parse_i64 sq); inversion Hp; reflexivity.
  - inversion Hp; reflexivity.
Qed.

Lemma parse_between_endpoints : forall e op pa lo hi a,
  into_inner e = [op] -> as_rule op = Rule.between_op -> into_inner op = [pa; lo; hi] ->
  parse_assertion e = Ok a ->
  exists vlo vhi, a = Between (as_str pa) vlo vhi /\
    parse_value lo = Ok vlo /\ parse_value hi = Ok vhi /\
    (wf_value lo = true -> value_kind lo = Some (value_rule vlo)) /\
    (wf_value hi = true -> value_kind hi = Some (value_rule vhi)).
Proof.
  intros e op pa lo hi a He Hop Hin H.
  unfold parse_assertion in H. rewrite He in H. simpl in H. rewrite Hop in H.
  unfold parse_between_op in H. rewrite Hin in H. simpl in H.
  destruct (parse_value lo) as [vlo|err] eqn:El; simpl in H; [|discriminate].
  destruct (parse_value hi) as [vhi|err] eqn:Eh; simpl in H; [|discriminate].
  injection H as <-. exists vlo, vhi.
  split; [reflexivity|]. split; [reflexivity|]. split; [reflexivity|].
  split; intro Hw; eapply parse_value_kind; eassumption.
Qed.

(** C3 (amended): in every test case of a successful parse every [In]
    assertion has at least one value; [parse_between_op] gives each
    [Between] endpoint the value [parse_value] reads from the authored
    value, of the same variant (a quoted string gives [String], a number
    [Number], a boolean [Bool]); and a [Between] assertion with a
    non-[Number] endpoint never passes. *)
Theorem parsed_in_nonempty_between_any :
  (forall url_parse pairs tcs,
     wf_file pairs = true -> parse_file url_parse pairs = Ok tcs ->
     Forall (fun tc => Forall in_nonempty (assertions tc)) tcs) /\
  (forall e op pa lo hi a,
     into_inner e = [op] -> as_rule op = Rule.between_op -> into_inner op = [pa; lo; hi] ->
     parse_assertion e = Ok a ->
     exists vlo vhi, a = Between (as_str pa) vlo vhi /\
       parse_value lo = Ok vlo /\ parse_value hi = Ok vhi /\
       (wf_value lo = true -> value_kind lo = Some (value_rule vlo)) /\
       (wf_value hi = true -> value_kind hi = Some (value_rule vhi))) /\
  (forall from_str r p lo hi,
     is_number lo = false \/ is_number hi = false ->
     exists f, check from_str (Between p lo hi) r = Err f).
Proof.
  split; [|split].
  - intros url_parse pairs tcs Hw H. unfold wf_file in Hw.
    destruct pairs as [|fp [|x rest]]; try discriminate.
    apply andb_prop in Hw as [_ Hw]. unfold parse_file in H. simpl in H.
    eapply file_loop_nonempty; [constructor|exact Hw|exact H].
  - exact parse_between_endpoints.
  - exact check_between_non_number.
Qed.

(** ** Witnesses: the hypotheses of the theorems hold on concrete inputs *)

Lemma check_ne_iff_resolved_differs_witness :
  resolve_path no_json empty_response "body" = None /\
  exists f, check no_json (Binary "body" Ne (VNumber 1)) empty_response = Err f
            /\ af_actual f = None.
Proof.
  split; [reflexivity|].
  apply (proj2 (check_ne_iff_resolved_differs no_json empty_response "body" (VNumber 1))).
  reflexivity.
Defined.

Lemma run_transport_error_witness :
  send down_transport 0 (tc_request sample_tc)
    = Err (TransportError "error sending request for url (http://h/)") /\
  response (run down_transport 0 no_json 7 sample_tc) = None.
Proof.
  split; [reflexivity|].
  exact (proj1 (proj2 (run_transport_error down_transport 0 no_json 7 sample_tc _ eq_refl))).
Defined.

Lemma run_tests_results_witness :
  List.In (run not_found_transport 0 no_json 7 sample_tc)
          (run_tests not_found_transport 0 no_json 7 (fun _ => false) [sample_tc]) /\
  exists tc, List.In tc [sample_tc] /\
             result (run not_found_transport 0 no_json 7 sample_tc) <> None.
Proof.
  assert (Hin : List.In (run not_found_transport 0 no_json 7 sample_tc)
                  (run_tests not_found_transport 0 no_json 7 (fun _ => false) [sample_tc]))
    by (left; reflexivity).
  split; [exact Hin|].
  destruct (run_tests_results not_found_transport 0 no_json 7 (fun _ => false) [sample_tc]
              _ Hin) as [tc [H1 [_ [H3 _]]]].
  exists tc. split; assumption.
Defined.

Lemma run_tests_order_witness :
  (forall i, (fun _ : nat => false) i = false) /\
  run_tests not_found_transport 0 no_json 7 (fun _ => false) [sample_tc; between_tc]
    = map (run not_found_transport 0 no_json 7) [sample_tc; between_tc].
Proof.
  split; [reflexivity|].
  apply (proj2 (run_tests_order not_found_transport 0 no_json 7 (fun _ => false)
                                [sample_tc; between_tc])).
  intro i. reflexivity.
Defined.

Lemma executor_bounded_and_terminates_witness :
  1 <= 3 /\ Acc (fun s' s => Sched.step s s') (Sched.init 3 10).
Proof.
  split; [lia|].
  apply (executor_bounded_and_terminates 3 10). lia.
Defined.

Lemma parsed_in_nonempty_between_any_witness :
  wf_file between_file = true /\
  parse_file (fun s => Some s) between_file = Ok [between_tc] /\
  Forall (fun tc => Forall in_nonempty (assertions tc)) [between_tc] /\
  (exists vlo vhi,
     Between "status" (VString "a") (VBool true) = Between "status" vlo vhi /\
     value_rule vlo = Rule.quoted_string /\ value_rule vhi = Rule.boolean) /\
  exists f, check no_json (Between "status" (VString "a") (VBool true)) empty_response
            = Err f.
Proof.
  assert (Hw : wf_file between_file = true) by reflexivity.
  assert (Hp : parse_file (fun s => Some s) between_file = Ok [between_tc]) by reflexivity.
  split; [exact Hw|]. split; [exact Hp|]. split; [|split].
  - exact (proj1 parsed_in_nonempty_between_any (fun s => Some s) between_file _ Hw Hp).
  - pose (qa := dq ++ "a" ++ dq).
    pose (lo := mkPair Rule.value qa [mkPair Rule.quoted_string qa []]).
    pose (hi := mkPair Rule.value "true" [mkPair Rule.boolean "true" []]).
    pose (op := mkPair Rule.between_op "status BETWEEN" [mkPair Rule.path "status" []; lo; hi]).
    destruct (proj1 (proj2 parsed_in_nonempty_between_any)
                (mkPair Rule.expect_expr "status BETWEEN" [op]) op
                (mkPair Rule.path "status" []) lo hi
                (Between "status" (VString "a") (VBool true))
                eq_refl eq_refl eq_refl eq_refl)
      as [vlo [vhi [Ha [_ [_ [Kl Kh]]]]]].
    exists vlo, vhi. split; [exact Ha|].
    specialize (Kl eq_refl). specialize (Kh eq_refl).
    vm_compute in Kl, Kh. injection Kl as Kl. injection Kh as Kh.
    split; symmetry; assumption.
  - apply (proj2 (proj2 parsed_in_nonempty_between_any)). left. reflexivity.
Defined.

(* ------------------------------------------------------------------ *)
(** ** Further facts of the assertion engine, the parser, the requests and the runner *)

(** X1: a [Binary] assertion with [Eq] passes exactly when its path
    resolves to the expected value. *)
Theorem check_eq_iff_resolves_to : forall from_str r p v,
  check from_str (Binary p Eq v) r = Ok tt <-> resolve_path from_str r p = Some v.
Proof.
  intros from_str r p v. simpl.
  destruct (resolve_path from_str r p) as [a|]; [|split; discriminate].
  simpl. destruct (value_eqb a v) eqn:E; simpl.
  - apply value_eqb_spec in E. subst. tauto.
  - apply value_eqb_false in E. split; [discriminate|]. intro H. inversion H. contradiction.
Qed.

(** X2: [Exists] passes exactly when the path resolves, and a
    [Unary] path passes exactly when it resolves to [true]. *)
Theorem check_exists_unary_iff : forall from_str r p,
  (check from_str (Exists p) r = Ok tt <-> resolve_path from_str r p <> None) /\
  (check from_str (Unary p) r = Ok tt <-> resolve_path from_str r p = Some (VBool true)).
Proof.
  intros from_str r p. simpl. split.
  - destruct (resolve_path from_str r p); split; congruence.
  - destruct (resolve_path from_str r p) as [a|]; [|split; discriminate].
    destruct (value_eqb a (VBool true)) eqn:E; simpl.
    + apply value_eqb_spec in E. subst. tauto.
    + apply value_eqb_false in E. split; [discriminate|]. intro H. inversion H. contradiction.
Qed.

(** X3: an ordering operator ([Gt], [Lt], [Gte], [Lte]) passes only
    when the path resolves to a number, the expected value is a number, and
    the two compare as the operator says. *)
Theorem check_ordering_numbers_only : forall from_str r p op v,
  op <> Eq -> op <> Ne ->
  (check from_str (Binary p op v) r = Ok tt <->
   exists a b, resolve_path from_str r p = Some (VNumber a) /\ v = VNumber b /\
               compare op (VNumber a) (VNumber b) = true).
Proof.
  intros from_str r p op v H1 H2. simpl.
  destruct (resolve_path from_str r p) as [a|].
  - destruct (compare op a v) eqn:E; simpl.
    + split; [intros _|reflexivity].
      destruct op; try congruence; destruct a; destruct v; try discriminate;
        do 2 eexists; eauto.
    + split; [discriminate|]. intros [x [y [Hx [Hy Hc]]]]. inversion Hx; subst. congruence.
  - split; [discriminate|]. intros [x [y [Hx _]]]. discriminate.
Qed.

(** X4: [Between] passes exactly when the path resolves to a number
    and both bounds are numbers enclosing it (bounds included). *)
Theorem check_between_iff : forall from_str r p lo hi,
  check from_str (Between p lo hi) r = Ok tt <->
  exists a l h, resolve_path from_str r p = Some (VNumber a) /\
                lo = VNumber l /\ hi = VNumber h /\ (l <= a <= h)%Z.
Proof.
  intros from_str r p lo hi. simpl.
  destruct (resolve_path from_str r p) as [a|].
  - destruct a as [s|a|b]; destruct lo as [|l|]; destruct hi as [|h|];
      try (split; [discriminate|intros (x & y & z & Hx & Hy & Hz & _); discriminate]).
    destruct (Z.geb a l && Z.leb a h) eqn:E.
    + split; [intros _|reflexivity]. apply andb_true_iff in E as [E1 E2].
      rewrite Z.geb_le in E1. apply Z.leb_le in E2. exists a, l, h. repeat split; lia.
    + split; [discriminate|]. intros (x & y & z & Hx & Hy & Hz & Hr).
      inversion Hx; inversion Hy; inversion Hz; subst.
      apply andb_false_iff in E as [E|E];
        [rewrite Z.geb_leb in E; apply Z.leb_gt in E | apply Z.leb_gt in E]; lia.
  - split; [discriminate|]. intros (x & y & z & Hx & _). discriminate.
Qed.

(** X5: [In] passes exactly when the path resolves to a value that
    is one of the listed values. *)
Theorem check_in_iff_member : forall from_str r p values,
  check from_str (In p values) r = Ok tt <->
  exists a, resolve_path from_str r p = Some a /\ List.In a values.
Proof.
  intros from_str r p values. simpl.
  destruct (resolve_path from_str r p) as [a|].
  - destruct (existsb (value_eqb a) values) eqn:E; simpl.
    + split; [intros _|reflexivity]. apply existsb_exists in E as [x [Hx Hax]].
      apply value_eqb_spec in Hax. subst. eauto.
    + split; [discriminate|]. intros [x [Hx Hin]]. inversion Hx; subst.
      assert (existsb (value_eqb x) values = true) as E'.
      { apply existsb_exists. exists x. split; [exact Hin|]. now apply value_eqb_spec. }
      congruence.
  - split; [discriminate|]. intros [x [Hx _]]. discriminate.
Qed.

(** X6: every failure [check] reports has an expected text, and its
    display shows that text and the actual value, or [<missing>] when the path
    does not resolve. *)
Theorem check_failure_display : forall from_str a r f,
  check from_str a r = Err f ->
  exists expected,
    af_expected f = Some expected /\
    (resolve_path from_str r (assertion_path a) = None ->
       failure_to_string f = af_message f ++ nl ++ "  expected: " ++ expected ++ nl
                             ++ "  actual:   <missing>") /\
    (forall v, resolve_path from_str r (assertion_path a) = Some v ->
       failure_to_string f = af_message f ++ nl ++ "  expected: " ++ expected ++ nl
                             ++ "  actual:   " ++ value_to_string v).
Proof.
  intros from_str a r f H.
  destruct a; simpl in H |- *;
    destruct (resolve_path from_str r _) as [v|];
    repeat match goal with
           | H : context [if ?b then _ else _] |- _ => destruct b
           | H : context [match ?v with VString _ => _ | VNumber _ => _ | VBool _ => _ end] |- _ =>
               destruct v
           end;
    inversion H; subst; eexists; (split; [reflexivity|]);
    split; intros; try discriminate; try reflexivity;
    match goal with H : Some _ = Some _ |- _ => inversion H; subst; reflexivity end.
Qed.

Lemma string_app_nil_r : forall s, s ++ "" = s.
Proof. induction s as [|c s IH]; simpl; [reflexivity|now rewrite IH]. Qed.

Lemma string_app_assoc : forall a b c, (a ++ b) ++ c = a ++ (b ++ c).
Proof. induction a as [|x a IH]; intros b c; simpl; [reflexivity|now rewrite IH]. Qed.

Lemma split_dot_aux_nodot : forall k cur rest,
  no_dot k = true -> split_dot_aux cur (k ++ rest) = split_dot_aux (cur ++ k) rest.
Proof.
  induction k as [|c k IH]; intros cur rest H; simpl.
  - now rewrite string_app_nil_r.
  - unfold no_dot in H. simpl in H. apply andb_true_iff in H as [Hc Hk].
    apply negb_true_iff in Hc. rewrite Hc. rewrite IH by exact Hk.
    now rewrite string_app_assoc.
Qed.

Lemma split_dot_aux_concat : forall keys k cur,
  forallb no_dot (k :: keys) = true ->
  split_dot_aux cur (String.concat "." (k :: keys)) = (cur ++ k) :: keys.
Proof.
  induction keys as [|k' keys IH]; intros k cur H;
    change (forallb no_dot (k :: ?l)) with (no_dot k && forallb no_dot l) in H;
    apply andb_true_iff in H as [Hk H].
  - change (String.concat "." [k]) with k.
    rewrite <- (string_app_nil_r k) at 1. rewrite split_dot_aux_nodot by exact Hk.
    reflexivity.
  - change (String.concat "." (k :: k' :: keys))
      with (k ++ String "." (String.concat "." (k' :: keys))).
    rewrite split_dot_aux_nodot by exact Hk. cbn [split_dot_aux Ascii.eqb Bool.eqb andb].
    change (match keys with
            | [] => k'
            | _ :: _ => k' ++ String "." (String.concat "." keys)
            end) with (String.concat "." (k' :: keys)).
    rewrite IH by exact H. reflexivity.
Qed.

Lemma split_dot_concat : forall keys,
  keys <> [] -> forallb no_dot keys = true -> split_dot (String.concat "." keys) = keys.
Proof.
  intros [|k keys] Hne H; [congruence|]. unfold split_dot.
  now rewrite split_dot_aux_concat.
Qed.

Lemma body_dot_not_status : forall x, String.eqb ("body." ++ x) "status" = false.
Proof. intro x. reflexivity. Qed.

Lemma body_dot_not_body : forall x, String.eqb ("body." ++ x) "body" = false.
Proof. intro x. reflexivity. Qed.

Lemma resolve_path_body_keys_eq : forall from_str r b j keys,
  resp_body r = Some b -> from_str b = Some j ->
  keys <> [] -> forallb no_dot keys = true ->
  resolve_path from_str r ("body." ++ String.concat "." keys)
  = json_leaf_value (descend j keys).
Proof.
  intros from_str r b j keys Hb Hj Hne Hk. unfold resolve_path.
  rewrite body_dot_not_status, body_dot_not_body, strip_prefix_app, Hb, Hj.
  rewrite split_dot_concat by assumption.
  destruct (descend j keys) as [[]|]; reflexivity.
Qed.

(** X7: a [body.k1.k2...] path with non-empty dot-free keys resolves
    to the scalar reached by looking the keys up in turn in the parsed body. *)
Theorem resolve_path_body_keys : forall from_str r b j keys,
  resp_body r = Some b -> from_str b = Some j ->
  keys <> [] -> forallb no_dot keys = true ->
  resolve_path from_str r ("body." ++ String.concat "." keys)
  = json_leaf_value (descend j keys).
Proof. exact resolve_path_body_keys_eq. Qed.

(** X8: [Exists] on a body path fails, reporting no actual value,
    when the value reached is [null], an array, an object, a float or an
    integer above the [i64] range. *)
Theorem exists_fails_on_non_scalar : forall from_str r b j keys leaf,
  resp_body r = Some b -> from_str b = Some j ->
  keys <> [] -> forallb no_dot keys = true ->
  descend j keys = Some leaf ->
  (leaf = JNull \/ (exists xs, leaf = JArray xs) \/ (exists fields, leaf = JObject fields) \/
   (exists t, leaf = JNumber (Float t)) \/
   (exists u, leaf = JNumber (PosInt u) /\ (i64_max < u)%Z)) ->
  exists f, check from_str (Exists ("body." ++ String.concat "." keys)) r = Err f /\
            af_actual f = None.
Proof.
  intros from_str r b j keys leaf Hb Hj Hne Hk Hd Hl. cbn [check].
  rewrite (resolve_path_body_keys_eq from_str r b j keys Hb Hj Hne Hk), Hd.
  destruct Hl as [->|[[xs ->]|[[fl ->]|[[t ->]|[u [-> Hu]]]]]]; simpl;
    try (eexists; split; reflexivity).
  unfold as_i64. replace (Z.leb u i64_max) with false by (symmetry; apply Z.leb_gt; lia).
  eexists; split; reflexivity.
Qed.

Lemma digits_value_digit : forall acc k s, (k < 10)%nat ->
  digits_value acc (String (ascii_of_nat (48 + k)) s) = digits_value (acc * 10 + Z.of_nat k) s.
Proof.
  intros acc k s Hk. cbn [digits_value]. rewrite nat_ascii_embedding by lia.
  replace (Nat.leb 48 (48 + k) && Nat.leb (48 + k) 57) with true
    by (symmetry; apply andb_true_iff; split; apply Nat.leb_le; lia).
  now replace (48 + k - 48)%nat with k by lia.
Qed.

Ltac digit_step k :=
  etransitivity; [apply (digits_value_digit _ k); lia|].

Lemma digits_value_uint_acc : forall u acc,
  digits_value (Z.pos acc) (NilEmpty.string_of_uint u)
  = Some (Z.pos (Pos.of_uint_acc u acc)).
Proof.
  induction u; intro acc; [reflexivity|..];
    cbn [Pos.of_uint_acc];
    first [digit_step 0%nat | digit_step 1%nat | digit_step 2%nat | digit_step 3%nat
          | digit_step 4%nat | digit_step 5%nat | digit_step 6%nat | digit_step 7%nat
          | digit_step 8%nat | digit_step 9%nat];
    rewrite <- IHu; f_equal; lia.
Qed.

Lemma digits_value_uint : forall u,
  digits_value 0 (NilEmpty.string_of_uint u) = Some (Z.of_N (Pos.of_uint u)).
Proof.
  induction u; cbn [Pos.of_uint]; [reflexivity|..];
    first [digit_step 0%nat | digit_step 1%nat | digit_step 2%nat | digit_step 3%nat
          | digit_step 4%nat | digit_step 5%nat | digit_step 6%nat | digit_step 7%nat
          | digit_step 8%nat | digit_step 9%nat];
    [exact IHu|..]; apply digits_value_uint_acc.
Qed.

Lemma string_of_uint_head : forall u, u <> Decimal.Nil ->
  exists c rest, NilZero.string_of_uint u = String c rest /\
    Ascii.eqb c "-"%char = false /\ Ascii.eqb c "+"%char = false /\
    NilZero.string_of_uint u = NilEmpty.string_of_uint u.
Proof. intros [] H; [contradiction|..]; do 2 eexists; repeat split. Qed.

Lemma digits_value_pos : forall p,
  digits_value 0 (NilZero.string_of_uint (Pos.to_uint p)) = Some (Z.pos p).
Proof.
  intro p. destruct (string_of_uint_head (Pos.to_uint p) (Unsigned.to_uint_nonnil p))
    as (c & rest & _ & _ & _ & E).
  rewrite E, digits_value_uint, Unsigned.of_to. reflexivity.
Qed.

Lemma parse_i64_z_to_string : forall n,
  (i64_min <= n <= i64_max)%Z -> parse_i64 (z_to_string n) = Some n.
Proof.
  intros n Hn. unfold z_to_string.
  assert (Hr : Z.leb i64_min n && Z.leb n i64_max = true)
    by (apply andb_true_iff; split; apply Z.leb_le; lia).
  destruct n as [|p|p]; [reflexivity|..]; cbn [Z.to_int NilZero.string_of_int];
    destruct (string_of_uint_head (Pos.to_uint p) (Unsigned.to_uint_nonnil p))
      as (c & rest & Hs & Hm & Hp & _);
    pose proof (digits_value_pos p) as Hd; rewrite Hs in Hd |- *; unfold parse_i64.
  - rewrite Hm, Hp, Hd. simpl Z.opp. rewrite Hr. reflexivity.
  - cbn [Ascii.eqb Bool.eqb andb]. rewrite Hd. simpl Z.opp. rewrite Hr. reflexivity.
Qed.

Lemma parse_i64_z_to_string_out : forall n,
  ~ (i64_min <= n <= i64_max)%Z -> parse_i64 (z_to_string n) = None.
Proof.
  intros n Hn. unfold z_to_string.
  assert (Hr : Z.leb i64_min n && Z.leb n i64_max = false).
  { apply andb_false_iff. destruct (Z.leb_spec i64_min n); [right|left; reflexivity].
    apply Z.leb_gt. lia. }
  destruct n as [|p|p]; [exfalso; apply Hn; unfold i64_min, i64_max; lia|..];
    cbn [Z.to_int NilZero.string_of_int];
    destruct (string_of_uint_head (Pos.to_uint p) (Unsigned.to_uint_nonnil p))
      as (c & rest & Hs & Hm & Hp & _);
    pose proof (digits_value_pos p) as Hd; rewrite Hs in Hd |- *; unfold parse_i64.
  - rewrite Hm, Hp, Hd. simpl Z.opp. rewrite Hr. reflexivity.
  - cbn [Ascii.eqb Bool.eqb andb]. rewrite Hd. simpl Z.opp. rewrite Hr. reflexivity.
Qed.

Lemma substring_prefix : forall p s, substring 0 (String.length p) (p ++ s) = p.
Proof. induction p as [|c p IH]; intro s; simpl; [now destruct s|now rewrite IH]. Qed.

(** X15: [parse_value] reads back a string, a boolean and an [i64]
    number from the pair of its display; a number outside the [i64] range is
    an error. *)
Theorem parse_value_inverts_display :
  (forall s, parse_value (value_pair (VString s)) = Ok (VString s)) /\
  (forall b, parse_value (value_pair (VBool b)) = Ok (VBool b)) /\
  (forall n, (i64_min <= n <= i64_max)%Z -> parse_value (value_pair (VNumber n)) = Ok (VNumber n)) /\
  (forall n, ~ (i64_min <= n <= i64_max)%Z ->
     exists e, parse_value (value_pair (VNumber n)) = Err (Msg e)).
Proof.
  split; [|split; [|split]].
  - intro s. cbn [value_pair value_rule value_to_string parse_value].
    rewrite length_app_string. unfold dq. cbn [String.length append].
    rewrite length_app_string. cbn [String.length].
    match goal with
    | |- context [Nat.ltb ?a 2] =>
        replace (Nat.ltb a 2) with false by (symmetry; apply Nat.ltb_ge; lia);
        replace (a - 2) with (String.length s) by lia
    end.
    cbn [substring]. now rewrite substring_prefix.
  - intros []; reflexivity.
  - intros n Hn. cbn [value_pair value_rule value_to_string parse_value].
    now rewrite parse_i64_z_to_string.
  - intros n Hn. cbn [value_pair value_rule value_to_string parse_value].
    rewrite parse_i64_z_to_string_out by exact Hn. eexists. reflexivity.
Qed.

(** X16: [parse_operator] accepts exactly the six operator tokens,
    each giving its operator, and reports any other text as unknown. *)
Theorem parse_operator_exact : forall p,
  (forall op, parse_operator p = Ok op <-> as_str p = operator_text op) /\
  ((forall op, as_str p <> operator_text op) ->
     parse_operator p = Err (Msg ("Unknown operator " ++ as_str p))).
Proof.
  intro p. unfold parse_operator.
  destruct (String.eqb_spec (as_str p) "==") as [E|E];
    [|destruct (String.eqb_spec (as_str p) "!=") as [E1|E1];
      [|destruct (String.eqb_spec (as_str p) ">") as [E2|E2];
        [|destruct (String.eqb_spec (as_str p) "<") as [E3|E3];
          [|destruct (String.eqb_spec (as_str p) ">=") as [E4|E4];
            [|destruct (String.eqb_spec (as_str p) "<=") as [E5|E5]]]]]];
    (split; [intros []; simpl; split; intro H; try congruence|]);
    try (intro H; exfalso;
         first [ apply (H Eq); simpl; congruence | apply (H Ne); simpl; congruence
               | apply (H Gt); simpl; congruence | apply (H Lt); simpl; congruence
               | apply (H Gte); simpl; congruence | apply (H Lte); simpl; congruence ]);
    intros _; reflexivity.
Qed.

Lemma assoc_get_insert_same : forall k v m, assoc_get k (hashmap_insert k v m) = Some v.
Proof.
  intros k v m. induction m as [|[k' v'] m IH]; simpl.
  - now rewrite String.eqb_refl.
  - destruct (String.eqb_spec k k') as [<-|Hne]; simpl.
    + now rewrite String.eqb_refl.
    + apply String.eqb_neq in Hne. now rewrite Hne.
Qed.

Lemma assoc_get_insert_other : forall k k' v m,
  k' <> k -> assoc_get k' (hashmap_insert k v m) = assoc_get k' m.
Proof.
  intros k k' v m Hne. induction m as [|[k0 v0] m IH]; simpl.
  - apply String.eqb_neq in Hne. now rewrite Hne.
  - destruct (String.eqb_spec k k0) as [<-|Hk]; simpl.
    + apply String.eqb_neq in Hne. now rewrite Hne.
    + now rewrite IH.
Qed.


Lemma collect_headers_other : forall post m m' k,
  collect_headers m post = Ok m' ->
  Forall (fun q => header_key q <> Some k) post ->
  assoc_get k m' = assoc_get k m.
Proof.
  induction post as [|q post IH]; intros m m' k H Hf; simpl in H.
  - now inversion H.
  - inversion Hf as [|? ? Hq Hpost]; subst.
    unfold header_key in Hq.
    destruct (into_inner q) as [|kp [|vp rest]] eqn:Ei; simpl in H; try discriminate.
    rewrite (IH _ _ _ H Hpost). apply assoc_get_insert_other. congruence.
Qed.

Lemma collect_headers_app : forall pre post m,
  collect_headers m (pre ++ post) = let* m1 := collect_headers m pre in collect_headers m1 post.
Proof.
  induction pre as [|q pre IH]; intros post m; simpl; [reflexivity|].
  destruct (into_inner q) as [|kp [|vp rest]]; simpl; try reflexivity. apply IH.
Qed.

(** X17: when a header name occurs several times, the last value
    given for it is the one kept. *)
Theorem collect_headers_last_wins : forall m pre h post kp vp rest m',
  collect_headers m (pre ++ h :: post) = Ok m' ->
  into_inner h = kp :: vp :: rest ->
  Forall (fun q => header_key q <> Some (as_str kp)) post ->
  assoc_get (as_str kp) m' = Some (as_str vp).
Proof.
  intros m pre h post kp vp rest m' H Hh Hpost.
  rewrite collect_headers_app in H.
  destruct (collect_headers m pre) as [m1|e]; simpl in H; [|discriminate].
  rewrite Hh in H. simpl in H.
  rewrite (collect_headers_other _ _ _ _ H Hpost). apply assoc_get_insert_same.
Qed.

Lemma file_loop_spec : forall url_parse inner acc res,
  file_loop url_parse acc inner = Ok res <->
  exists l, res = (acc ++ l)%list /\
    Forall2 (fun p tc => parse_test_block url_parse p = Ok tc)
            (filter (fun q => is_rule q Rule.test_block) inner) l.
Proof.
  intro url_parse. induction inner as [|p inner IH]; intros acc res; simpl.
  - split.
    + intro H. inversion H. exists []. rewrite app_nil_r. split; [reflexivity|constructor].
    + intros [l [-> Hl]]. inversion Hl. now rewrite app_nil_r.
  - destruct (is_rule p Rule.test_block).
    + destruct (parse_test_block url_parse p) as [tc|e] eqn:Ep; simpl.
      * rewrite IH. split.
        -- intros [l [-> Hl]]. exists (tc :: l). rewrite <- app_assoc. split; [reflexivity|].
           constructor; assumption.
        -- intros [l [-> Hl]]. inversion Hl as [|? tc' ? l' Htc Hl']; subst.
           rewrite Ep in Htc. inversion Htc; subst. exists l'.
           rewrite <- app_assoc. split; [reflexivity|exact Hl'].
      * split; [discriminate|]. intros [l [_ Hl]]. inversion Hl; subst. congruence.
    + apply IH.
Qed.

(** X18: [parse_file] succeeds exactly when every [test_block] child
    of the file pair parses, and returns their test cases in order. *)
Theorem parse_file_blocks : forall url_parse fp rest tcs,
  parse_file url_parse (fp :: rest) = Ok tcs <->
  Forall2 (fun p tc => parse_test_block url_parse p = Ok tc)
          (filter (fun q => is_rule q Rule.test_block) (into_inner fp)) tcs.
Proof.
  intros url_parse fp rest tcs. cbn [parse_file next]. rewrite file_loop_spec. split.
  - intros [l [-> Hl]]. exact Hl.
  - intro H. exists tcs. split; [reflexivity|exact H].
Qed.

Lemma expects_loop_app : forall l1 l2 acc,
  expects_loop acc (l1 ++ l2) = let* a := expects_loop acc l1 in expects_loop a l2.
Proof.
  induction l1 as [|e l1 IH]; intros l2 acc; simpl; [reflexivity|].
  destruct (into_inner e) as [|x xs]; simpl; [reflexivity|].
  destruct (parse_assertion x); simpl; [apply IH|reflexivity].
Qed.

Lemma is_rule_as_rule : forall p r, as_rule p = r -> is_rule p r = true.
Proof. intros p r H. unfold is_rule. rewrite H. destruct r; reflexivity. Qed.

Lemma is_rule_neq : forall p r, as_rule p <> r -> is_rule p r = false.
Proof.
  intros p r H. unfold is_rule. destruct (Rule.t_beq (as_rule p) r) eqn:E; [|reflexivity].
  exfalso. apply H. apply Rule.internal_t_dec_bl. exact E.
Qed.

Lemma block_loop_assertions : forall url_parse inner nm req acc nm' req' asserts,
  block_loop url_parse nm req acc inner = Ok (nm', req', asserts) ->
  expects_loop acc (expects_children inner) = Ok asserts.
Proof.
  intro url_parse. induction inner as [|p inner IH]; intros nm req acc nm' req' asserts H;
    simpl in H |- *.
  - now inversion H.
  - destruct (as_rule p) eqn:Er; unfold is_rule at 1; rewrite Er; simpl;
      try (eapply IH; exact H).
    + destruct (parse_http_request url_parse p); simpl in H; [|discriminate].
      eapply IH; exact H.
    + rewrite expects_loop_app.
      destruct (expects_loop acc (into_inner p)); simpl in H |- *; [|discriminate].
      eapply IH; exact H.
Qed.

(** X19: the assertions of a parsed test block are those of all its
    [expects] sections, in order. *)
Theorem parse_test_block_assertions : forall url_parse p tc,
  parse_test_block url_parse p = Ok tc ->
  expects_loop [] (expects_children (into_inner p)) = Ok (assertions tc).
Proof.
  intros url_parse p tc H. unfold parse_test_block in H.
  destruct (block_loop url_parse None None [] (into_inner p)) as [[[nm req] asserts]|e] eqn:E;
    simpl in H; [|discriminate].
  destruct req; inversion H; subst. simpl. eapply block_loop_assertions. exact E.
Qed.

Lemma block_loop_no_request : forall url_parse inner nm req acc nm' req' asserts,
  forallb (fun q => negb (is_rule q Rule.request)) inner = true ->
  block_loop url_parse nm req acc inner = Ok (nm', req', asserts) -> req' = req.
Proof.
  intro url_parse. induction inner as [|p inner IH]; intros nm req acc nm' req' asserts Hn H;
    simpl in Hn, H.
  - now inversion H.
  - apply andb_true_iff in Hn as [Hp Hn].
    destruct (as_rule p) eqn:Er; try (eapply IH; eassumption).
    + unfold is_rule in Hp. rewrite Er in Hp. discriminate.
    + destruct (expects_loop acc (into_inner p)); simpl in H; [|discriminate].
      eapply IH; eassumption.
Qed.

Lemma request_loop_no_url : forall url_parse inner st st',
  forallb (fun q => negb (is_rule q Rule.url)) inner = true ->
  request_loop url_parse st inner = Ok st' -> rp_url st' = rp_url st.
Proof.
  intro url_parse. induction inner as [|p inner IH]; intros st st' Hn H; simpl in Hn, H.
  - now inversion H.
  - apply andb_true_iff in Hn as [Hp Hn].
    destruct (as_rule p) eqn:Er; try (rewrite (IH _ _ Hn H); reflexivity).
    + unfold is_rule in Hp. rewrite Er in Hp. discriminate.
    + destruct (collect_headers (rp_headers st) (into_inner p)); simpl in H; [|discriminate].
      rewrite (IH _ _ Hn H). reflexivity.
Qed.

Lemma request_loop_no_method : forall url_parse inner st st',
  forallb (fun q => negb (is_rule q Rule.method)) inner = true ->
  request_loop url_parse st inner = Ok st' -> rp_method st' = rp_method st.
Proof.
  intro url_parse. induction inner as [|p inner IH]; intros st st' Hn H; simpl in Hn, H.
  - now inversion H.
  - apply andb_true_iff in Hn as [Hp Hn].
    destruct (as_rule p) eqn:Er; try (rewrite (IH _ _ Hn H); reflexivity).
    + unfold is_rule in Hp. rewrite Er in Hp. discriminate.
    + destruct (url_parse (as_str p)); [|discriminate]. rewrite (IH _ _ Hn H). reflexivity.
    + destruct (collect_headers (rp_headers st) (into_inner p)); simpl in H; [|discriminate].
      rewrite (IH _ _ Hn H). reflexivity.
Qed.

(** X20: a test block without a request, and a request without a
    url, are parse errors. *)
Theorem missing_request_or_url_rejected : forall url_parse p,
  (forallb (fun q => negb (is_rule q Rule.request)) (into_inner p) = true ->
     exists e, parse_test_block url_parse p = Err e) /\
  (forallb (fun q => negb (is_rule q Rule.url)) (into_inner p) = true ->
     exists e, parse_http_request url_parse p = Err e).
Proof.
  intros url_parse p. split; intro Hn.
  - unfold parse_test_block.
    destruct (block_loop url_parse None None [] (into_inner p))
      as [[[nm req] asserts]|e] eqn:E; simpl; [|eauto].
    rewrite (block_loop_no_request _ _ _ _ _ _ _ _ Hn E). simpl. eauto.
  - unfold parse_http_request.
    destruct (request_loop url_parse _ (into_inner p)) as [st|e] eqn:E; simpl; [|eauto].
    rewrite (request_loop_no_url _ _ _ _ Hn E). simpl. eauto.
Qed.

(** X21: a request parsed without a method gets the empty method,
    which [call_request] rejects before any network call. *)
Theorem request_without_method_fails_send : forall url_parse transport p r,
  forallb (fun q => negb (is_rule q Rule.method)) (into_inner p) = true ->
  parse_http_request url_parse p = Ok r ->
  method r = "" /\ call_request transport r = Err (InvalidMethod "").
Proof.
  intros url_parse transport p r Hn H. unfold parse_http_request in H.
  destruct (request_loop url_parse _ (into_inner p)) as [st|e] eqn:E; simpl in H;
    [|discriminate].
  rewrite (request_loop_no_method _ _ _ _ Hn E) in H. simpl in H.
  destruct (rp_url st); inversion H; subst. split; reflexivity.
Qed.

Lemma failures_nil_iff : forall fs resp asserts,
  failures fs resp asserts = [] <-> Forall (fun a => check fs a resp = Ok tt) asserts.
Proof.
  intros fs resp asserts. induction asserts as [|a asserts IH]; simpl.
  - split; [constructor|reflexivity].
  - destruct (check fs a resp) as [[]|e] eqn:E; simpl.
    + rewrite IH. split; [intro H; constructor; assumption|intro H; inversion H; assumption].
    + split; [discriminate|]. intro H. inversion H; congruence.
Qed.

(** X14: a run passes exactly when the send succeeds and every
    assertion checks against the response. *)
Theorem run_passed_iff : forall transport se fs re tc d,
  result (run transport se fs re tc) = Some (Passed d) <->
  d = re /\ exists resp, send transport se (tc_request tc) = Ok resp /\
                         Forall (fun a => check fs a resp = Ok tt) (assertions tc).
Proof.
  intros transport se fs re tc d. unfold run.
  destruct (send transport se (tc_request tc)) as [resp|e]; simpl.
  - rewrite check_all_failures.
    destruct (failures fs resp (assertions tc)) as [|f fl] eqn:Hf.
    + apply failures_nil_iff in Hf. split.
      * intro H. inversion H. split; [reflexivity|]. eauto.
      * intros [-> _]. reflexivity.
    + split; [discriminate|]. intros [_ [resp' [Hr Ha]]]. inversion Hr; subst.
      apply failures_nil_iff in Ha. congruence.
  - split; [discriminate|]. intros [_ [resp' [Hr _]]]. discriminate.
Qed.

Lemma send_request_some : forall transport se req resp,
  send transport se req = Ok resp ->
  exists raw text, request resp = Some req /\ status resp = raw_status raw /\
    resp_headers resp = raw_headers raw /\ resp_body resp = Some text /\
    duration resp = se.
Proof.
  intros transport se req resp H. unfold send in H.
  destruct (call_request transport req) as [raw|e]; simpl in H; [|discriminate].
  destruct (raw_text raw) as [text|e]; simpl in H; [|discriminate].
  inversion H; subst. exists raw, text. simpl. repeat split.
Qed.

Lemma print_sent_response : forall transport se req resp,
  send transport se req = Ok resp ->
  exists st b,
    print_response resp =
      Some [LMethod (method req) (method_color (method req)); LUrl (url req);
            LStatus st (status_color st); LDuration se; LHeaders (resp_headers resp);
            LBody b].
Proof.
  intros transport se req resp H.
  destruct (send_request_some _ _ _ _ H) as (raw & text & Hq & _ & _ & Hb & Hd).
  unfold print_response. rewrite Hq, Hb, Hd. eexists _, _. reflexivity.
Qed.

(** X13: the response [TestCase::run] stores can be printed: it
    carries the request, and the printed lines show its method, url, status,
    duration, headers and body. *)
Theorem run_response_printable : forall transport se fs re tc r,
  response tc = None ->
  response (run transport se fs re tc) = Some r ->
  exists st b,
    print_response r =
      Some [LMethod (method (tc_request tc)) (method_color (method (tc_request tc)));
            LUrl (url (tc_request tc)); LStatus st (status_color st); LDuration se;
            LHeaders (resp_headers r); LBody b].
Proof.
  intros transport se fs re tc r Hn H. unfold run in H.
  destruct (send transport se (tc_request tc)) as [resp|e] eqn:Hs; simpl in H.
  - inversion H; subst. eapply print_sent_response. exact Hs.
  - congruence.
Qed.

(** X10: a single request given both [--json] and [--body] is
    refused. *)
Theorem single_request_rejects_body_and_json :
  forall transport se json_from_str url_parse args j b,
  arg_json args = Some j -> arg_body args = Some b ->
  handle_single_request transport se json_from_str url_parse args
  = Err (Anyhow "Cannot use both --body and --json options together.").
Proof.
  intros transport se json_from_str url_parse args j b Hj Hb.
  unfold handle_single_request. now rewrite Hj, Hb.
Qed.

(** X11: with [--body] and no [--json], the request sent is the
    uppercased method, the parsed url, no headers and the body as text. *)
Theorem single_request_body_sent :
  forall transport se json_from_str url_parse args b u,
  arg_json args = None -> arg_body args = Some b ->
  url_parse (match arg_url args with Some s => s | None => "http://httpbin.org/get" end)
    = Ok u ->
  handle_single_request transport se json_from_str url_parse args
  = match send transport se {| method := to_uppercase (arg_method args); url := u;
                               headers := []; body := Some (Text b) |} with
    | Ok response => Ok response
    | Err e => Err (Http e)
    end.
Proof.
  intros transport se json_from_str url_parse args b u Hj Hb Hu.
  unfold handle_single_request. rewrite Hj, Hb. simpl. rewrite Hu. reflexivity.
Qed.

(** X12: with [--json] and no [--body], invalid JSON is reported with
    the parser's message, and valid JSON is sent as a JSON body. *)
Theorem single_request_json_body :
  forall transport se json_from_str url_parse args j,
  arg_json args = Some j -> arg_body args = None ->
  (forall e, json_from_str j = Err e ->
     handle_single_request transport se json_from_str url_parse args
     = Err (Anyhow ("Invalid JSON body: " ++ e))) /\
  (forall v u,
     json_from_str j = Ok v ->
     url_parse (match arg_url args with Some s => s | None => "http://httpbin.org/get" end)
       = Ok u ->
     handle_single_request transport se json_from_str url_parse args
     = match send transport se {| method := to_uppercase (arg_method args); url := u;
                                  headers := []; body := Some (Json v) |} with
       | Ok response => Ok response
       | Err e => Err (Http e)
       end).
Proof.
  intros transport se json_from_str url_parse args j Hj Hb.
  unfold handle_single_request. rewrite Hj, Hb. simpl. split.
  - intros e He. rewrite He. reflexivity.
  - intros v u Hv Hu. rewrite Hv. simpl. rewrite Hu. reflexivity.
Qed.

Lemma human_counts_fold : forall tests p f d,
  fold_left (fun acc test =>
               let '(passed, failed, total) := acc in
               match result test with
               | Some (Passed d) => (S passed, failed, total + d)
               | Some (Failed d _) => (passed, S failed, total + d)
               | None => acc
               end) tests (p, f, d)
  = (p + length (filter is_passed tests), f + length (filter is_failed tests),
     d + list_sum (map result_duration tests)).
Proof.
  induction tests as [|t tests IH]; intros p f d; simpl.
  - repeat rewrite Nat.add_0_r. reflexivity.
  - unfold is_passed at 1, is_failed at 1, result_duration at 1.
    destruct (result t) as [[dd|dd errs]|]; simpl; rewrite IH;
    match goal with
    | |- (?a, ?b, ?c) = (?a', ?b', ?c') =>
        assert (a = a') by lia; assert (b = b') by lia; assert (c = c') by lia; congruence
    end.
Qed.

Lemma partition_length : forall tests,
  length tests = length (filter is_passed tests) + length (filter is_failed tests)
                 + length (filter no_result tests).
Proof.
  induction tests as [|t tests IH]; simpl; [reflexivity|].
  unfold is_passed at 1, is_failed at 1, no_result at 1.
  destruct (result t) as [[]|]; simpl; lia.
Qed.

(** X22: the human and diff summaries count the same passed tests;
    the diff summary's failed count also includes the tests with no result. *)
Theorem summary_counts_agree : forall tests hp hf hd dt dp df,
  human_counts tests = (hp, hf, hd) -> diff_counts tests = (dt, dp, df) ->
  hp = dp /\ df = hf + length (filter no_result tests) /\ dt = length tests /\
  hd = list_sum (map result_duration tests).
Proof.
  intros tests hp hf hd dt dp df Hh Hd. unfold human_counts in Hh.
  rewrite human_counts_fold in Hh. unfold diff_counts in Hd.
  inversion Hh; inversion Hd; subst. pose proof (partition_length tests). lia.
Qed.

Lemma run_has_result : forall transport se fs re tc,
  no_result (run transport se fs re tc) = false.
Proof.
  intros. unfold run, no_result.
  destruct (send transport se (tc_request tc)); simpl; [|reflexivity].
  destruct (check_all fs h (assertions tc)); reflexivity.
Qed.

Lemma run_tests_runs : forall transport se fs re panics tcs,
  run_tests transport se fs re panics tcs
  = map (run transport se fs re)
        (map snd (filter (fun it => negb (panics (fst it)))
                         (combine (seq 0 (length tcs)) tcs))).
Proof. intros. unfold run_tests, join_all. now rewrite join_all_app. Qed.

(** X23: on the output of [run_tests] both summaries give the same
    passed and failed counts, which add up to the number of tests. *)
Theorem summary_counts_after_run : forall transport se fs re panics tcs hp hf hd dt dp df,
  human_counts (run_tests transport se fs re panics tcs) = (hp, hf, hd) ->
  diff_counts (run_tests transport se fs re panics tcs) = (dt, dp, df) ->
  hp = dp /\ hf = df /\ hp + hf = dt.
Proof.
  intros transport se fs re panics tcs hp hf hd dt dp df Hh Hd.
  unfold human_counts in Hh. rewrite human_counts_fold in Hh. unfold diff_counts in Hd.
  inversion Hh; inversion Hd; subst.
  pose proof (partition_length (run_tests transport se fs re panics tcs)) as Hp.
  assert (Hn : filter no_result (run_tests transport se fs re panics tcs) = []).
  { rewrite run_tests_runs. generalize (map snd (filter (fun it => negb (panics (fst it)))
                                          (combine (seq 0 (length tcs)) tcs))).
    intro l. induction l as [|t l IH]; simpl; [reflexivity|]. now rewrite run_has_result. }
  rewrite Hn in Hp. simpl in Hp. lia.
Qed.

Lemma run_tests_length : forall transport se fs re panics tcs,
  (forall i, panics i = false) -> length (run_tests transport se fs re panics tcs) = length tcs.
Proof.
  intros. rewrite run_tests_runs, survivors_all by assumption. apply length_map.
Qed.

Lemma run_files_length : forall transport se fs re panics all k,
  (forall k i, panics k i = false) ->
  length (run_files transport se fs re panics k all)
  = list_sum (map (fun ft => length (snd ft)) all).
Proof.
  intros transport se fs re panics all. induction all as [|[p tests] all IH]; intros k H;
    simpl; [reflexivity|].
  rewrite length_app, run_tests_length by auto. now rewrite IH.
Qed.

(** X24: when no task panics, the total announced by [run_path] is the
    number of results it hands to the summary. *)
Theorem run_path_total : forall transport se fs re panics load extension path total results,
  (forall k i, panics k i = false) ->
  run_path transport se fs re panics load extension path = Ok (Ran total results) ->
  length results = total.
Proof.
  intros transport se fs re panics load extension path total results Hp H.
  unfold run_path in H.
  destruct (match path with
            | IsFile p => let* tests := load p in Ok [(p, tests)]
            | IsDir entries => load_all load extension entries
            | Neither p => Err (Msg (p ++ " is neither a file nor a folder"))
            end) as [all|e]; simpl in H; [|discriminate].
  destruct all as [|ft all]; [discriminate|].
  injection H as E1 E2. rewrite <- E1, <- E2.
  exact (run_files_length transport se fs re panics (ft :: all) 0 Hp).
Qed.

Lemma load_all_nil : forall load extension entries,
  filter (is_ax extension) entries = [] -> load_all load extension entries = Ok [].
Proof.
  intros load extension entries. induction entries as [|p es IH]; simpl; [reflexivity|].
  destruct (is_ax extension p); [discriminate|exact IH].
Qed.

Lemma load_all_nonempty : forall load extension entries all,
  load_all load extension entries = Ok all ->
  filter (is_ax extension) entries <> [] -> all <> [].
Proof.
  intros load extension entries. induction entries as [|p es IH]; intros all H Hne;
    simpl in H, Hne; [congruence|].
  destruct (is_ax extension p).
  - destruct (load p); simpl in H; [|discriminate].
    destruct (load_all load extension es); simpl in H; inversion H. discriminate.
  - eapply IH; eassumption.
Qed.

Lemma load_all_err : forall load extension entries p e,
  List.In p entries -> is_ax extension p = true -> load p = Err e ->
  exists e', load_all load extension entries = Err e'.
Proof.
  intros load extension entries. induction entries as [|q es IH]; intros p e Hin Hax Hl;
    simpl in Hin |- *; [contradiction|].
  destruct Hin as [->|Hin].
  - rewrite Hax, Hl. simpl. eauto.
  - destruct (is_ax extension q); [|eapply IH; eassumption].
    destruct (load q); simpl; [|eauto].
    destruct (IH p e Hin Hax Hl) as [e' ->]. simpl. eauto.
Qed.

(** X25: a folder gives [No tests found] exactly when it has no
    [.ax] entry; a [.ax] entry that fails to load fails the run; an empty file
    runs zero tests. *)
Theorem run_path_outcomes : forall transport se fs re panics load extension entries,
  (run_path transport se fs re panics load extension (IsDir entries) = Ok NoTests <->
   filter (is_ax extension) entries = []) /\
  ((exists p e, List.In p entries /\ is_ax extension p = true /\ load p = Err e) ->
   exists e, run_path transport se fs re panics load extension (IsDir entries) = Err e) /\
  (forall p, load p = Ok [] ->
   run_path transport se fs re panics load extension (IsFile p) = Ok (Ran 0 [])).
Proof.
  intros transport se fs re panics load extension entries. split; [|split].
  - unfold run_path. split.
    + intro H. destruct (filter (is_ax extension) entries) eqn:Ef; [reflexivity|].
      exfalso. destruct (load_all load extension entries) as [all|e] eqn:El;
        simpl in H; [|discriminate].
      assert (all <> []) by (eapply load_all_nonempty; [exact El|congruence]).
      destruct all; [contradiction|discriminate].
    + intro H. rewrite load_all_nil by exact H. reflexivity.
  - intros (p & e & Hin & Hax & Hl). unfold run_path.
    destruct (load_all_err load extension entries p e Hin Hax Hl) as [e' ->]. simpl. eauto.
  - intros p Hp. unfold run_path. rewrite Hp. reflexivity.
Qed.

(* ------------------------------------------------------------------ *)
(** ** Witnesses of the further facts *)

Lemma check_ordering_numbers_only_witness :
  Gt <> Eq /\ Gt <> Ne /\
  (check no_json (Binary "status" Gt (VNumber 200)) empty_response = Ok tt <->
   exists a b, resolve_path no_json empty_response "status" = Some (VNumber a) /\
               VNumber 200 = VNumber b /\ compare Gt (VNumber a) (VNumber b) = true).
Proof.
  split; [discriminate|split; [discriminate|]].
  apply check_ordering_numbers_only; discriminate.
Defined.

Lemma check_failure_display_witness :
  exists f, check no_json (Binary "status" Eq (VNumber 200)) empty_response = Err f /\
  exists expected, af_expected f = Some expected /\
    failure_to_string f = af_message f ++ nl ++ "  expected: " ++ expected ++ nl
                          ++ "  actual:   " ++ value_to_string (VNumber 404).
Proof.
  eexists. split; [reflexivity|].
  destruct (check_failure_display no_json (Binary "status" Eq (VNumber 200)) empty_response _
              eq_refl) as [e [He [_ H]]].
  exists e. split; [exact He|]. apply H. reflexivity.
Defined.

Lemma resolve_path_body_keys_witness :
  resp_body user_response = Some user_text /\ user_from_str user_text = Some user_json /\
  resolve_path user_from_str user_response "body.user.age" = Some (VNumber 30).
Proof.
  split; [reflexivity|split; [reflexivity|]].
  change "body.user.age" with ("body." ++ String.concat "." ["user"; "age"]).
  rewrite (resolve_path_body_keys user_from_str user_response user_text user_json
             ["user"; "age"] eq_refl eq_refl ltac:(discriminate) eq_refl).
  reflexivity.
Defined.

Lemma exists_fails_on_non_scalar_witness :
  descend user_json ["id"] = Some (JNumber (PosInt 9223372036854775808)) /\
  exists f, check user_from_str (Exists "body.id") user_response = Err f /\ af_actual f = None.
Proof.
  split; [reflexivity|].
  apply (exists_fails_on_non_scalar user_from_str user_response user_text user_json ["id"]
           (JNumber (PosInt 9223372036854775808)) eq_refl eq_refl ltac:(discriminate)
           eq_refl eq_refl).
  right; right; right; right. exists 9223372036854775808%Z. split; [reflexivity|].
  unfold i64_max. lia.
Defined.

Lemma single_request_rejects_body_and_json_witness :
  arg_json both_args = Some "{}" /\ arg_body both_args = Some "x" /\
  handle_single_request not_found_transport 0 json_ok url_ok both_args
  = Err (Anyhow "Cannot use both --body and --json options together.").
Proof.
  split; [reflexivity|split; [reflexivity|]].
  apply (single_request_rejects_body_and_json not_found_transport 0 json_ok url_ok
           both_args "{}" "x"); reflexivity.
Defined.

Lemma single_request_body_sent_witness :
  arg_json body_args = None /\ arg_body body_args = Some "{}" /\
  url_ok "http://h/" = Ok "http://h/" /\
  handle_single_request not_found_transport 0 json_ok url_ok body_args
  = match send not_found_transport 0 post_request with
    | Ok response => Ok response
    | Err e => Err (Http e)
    end.
Proof.
  split; [reflexivity|split; [reflexivity|split; [reflexivity|]]].
  exact (single_request_body_sent not_found_transport 0 json_ok url_ok body_args "{}"
           "http://h/" eq_refl eq_refl eq_refl).
Defined.

Lemma single_request_json_body_witness :
  arg_json json_args = Some "{}" /\ arg_body json_args = None /\
  json_ok "{}" = Ok (JObject []) /\
  handle_single_request not_found_transport 0 json_ok url_ok json_args
  = match send not_found_transport 0
            {| method := "POST"; url := "http://h/"; headers := [];
               body := Some (Json (JObject [])) |} with
    | Ok response => Ok response
    | Err e => Err (Http e)
    end.
Proof.
  split; [reflexivity|split; [reflexivity|split; [reflexivity|]]].
  destruct (single_request_json_body not_found_transport 0 json_ok url_ok json_args "{}"
              eq_refl eq_refl) as [_ H].
  exact (H (JObject []) "http://h/" eq_refl eq_refl).
Defined.

Lemma run_response_printable_witness :
  exists r, response sample_tc = None /\
  response (run not_found_transport 0 no_json 7 sample_tc) = Some r /\
  exists st b,
    print_response r =
      Some [LMethod "GET" (method_color "GET"); LUrl "http://h/"; LStatus st (status_color st);
            LDuration 0; LHeaders []; LBody b].
Proof.
  eexists. split; [reflexivity|split; [reflexivity|]].
  exact (run_response_printable not_found_transport 0 no_json 7 sample_tc _ eq_refl eq_refl).
Defined.

Lemma collect_headers_last_wins_witness :
  exists m', collect_headers [] ([header_pair "X" "1"] ++ header_pair "X" "2" :: [header_pair "Y" "3"])
             = Ok m' /\ assoc_get "X" m' = Some "2".
Proof.
  eexists. split; [reflexivity|].
  apply (collect_headers_last_wins [] [header_pair "X" "1"] (header_pair "X" "2")
           [header_pair "Y" "3"] (mkPair Rule.header_name "X" []) (mkPair Rule.header_value "2" [])
           [] _ eq_refl eq_refl).
  constructor; [discriminate|constructor].
Defined.

Lemma parse_test_block_assertions_witness :
  exists tc, parse_test_block (fun s => Some s) between_block = Ok tc /\
  expects_loop [] (expects_children (into_inner between_block)) = Ok (assertions tc).
Proof.
  eexists. split; [reflexivity|].
  exact (parse_test_block_assertions (fun s => Some s) between_block _ eq_refl).
Defined.

Lemma request_without_method_fails_send_witness :
  exists r, forallb (fun q => negb (is_rule q Rule.method)) (into_inner no_method_pair) = true /\
  parse_http_request (fun s => Some s) no_method_pair = Ok r /\
  method r = "" /\ call_request not_found_transport r = Err (InvalidMethod "").
Proof.
  eexists. split; [reflexivity|split; [reflexivity|]].
  exact (request_without_method_fails_send (fun s => Some s) not_found_transport no_method_pair _
           eq_refl eq_refl).
Defined.

Lemma summary_counts_agree_witness :
  human_counts mixed_tests = (1, 1, 14) /\ diff_counts mixed_tests = (3, 1, 2) /\
  1 = 1 /\ 2 = 1 + length (filter no_result mixed_tests) /\ 3 = length mixed_tests /\
  14 = list_sum (map result_duration mixed_tests).
Proof.
  assert (H1 : human_counts mixed_tests = (1, 1, 14)) by reflexivity.
  assert (H2 : diff_counts mixed_tests = (3, 1, 2)) by reflexivity.
  split; [exact H1|split; [exact H2|]].
  exact (summary_counts_agree mixed_tests 1 1 14 3 1 2 H1 H2).
Defined.

Lemma summary_counts_after_run_witness :
  human_counts (run_tests not_found_transport 0 no_json 7 (fun _ => false)
                  [sample_tc; status_404_tc]) = (1, 1, 14) /\
  diff_counts (run_tests not_found_transport 0 no_json 7 (fun _ => false)
                 [sample_tc; status_404_tc]) = (2, 1, 1) /\
  1 = 1 /\ 1 = 1 /\ 1 + 1 = 2.
Proof.
  assert (H1 : human_counts (run_tests not_found_transport 0 no_json 7 (fun _ => false)
                               [sample_tc; status_404_tc]) = (1, 1, 14)) by reflexivity.
  assert (H2 : diff_counts (run_tests not_found_transport 0 no_json 7 (fun _ => false)
                              [sample_tc; status_404_tc]) = (2, 1, 1)) by reflexivity.
  split; [exact H1|split; [exact H2|]].
  exact (summary_counts_after_run not_found_transport 0 no_json 7 (fun _ => false)
           [sample_tc; status_404_tc] 1 1 14 2 1 1 H1 H2).
Defined.

Lemma run_path_total_witness :
  exists results,
  (forall k i, (fun _ _ : nat => false) k i = false) /\
  run_path not_found_transport 0 no_json 7 (fun _ _ => false)
    (fun _ => Ok [sample_tc; status_404_tc]) (fun _ => Some "ax") (IsFile "a.ax")
  = Ok (Ran 2 results) /\ length results = 2.
Proof.
  eexists. split; [intros; reflexivity|split; [reflexivity|]].
  apply (run_path_total not_found_transport 0 no_json 7 (fun _ _ => false)
           (fun _ => Ok [sample_tc; status_404_tc]) (fun _ => Some "ax") (IsFile "a.ax"));
    [intros; reflexivity|reflexivity].
Defined.

(** ** Methods of parsed requests *)

Lemma method_token_sent : forall m,
  method_token m = true ->
  List.In m ["GET"; "POST"; "PUT"; "DELETE"; "PATCH"] /\
  to_uppercase m = m /\ exists x, reqwest_method m = Some x.
Proof.
  intros m H. unfold method_token in H.
  apply existsb_exists in H as [w [Hin Heq]]. apply String.eqb_eq in Heq. subst w.
  split; [exact Hin|].
  simpl in Hin. destruct Hin as [<-|[<-|[<-|[<-|[<-|[]]]]]];
    (split; [reflexivity|eexists; reflexivity]).
Qed.

Lemma wf_request_method : forall url_parse p r,
  wf_request p = true -> parse_http_request url_parse p = Ok r ->
  method_token (method r) = true.
Proof.
  intros url_parse p r Hw H. unfold wf_request in Hw.
  apply andb_prop in Hw as [_ Hw].
  unfold parse_http_request in H.
  destruct (into_inner p) as [|m [|u rest]]; try discriminate.
  apply andb_prop in Hw as [Hw Hn]. apply andb_prop in Hw as [Hw Hu].
  apply andb_prop in Hw as [Hm Htok].
  assert (Em : as_rule m = Rule.method).
  { unfold is_rule in Hm. apply Rule.internal_t_dec_bl. exact Hm. }
  assert (Hn' : forallb (fun q => negb (is_rule q Rule.method)) (u :: rest) = true).
  { cbn [forallb]. rewrite Hn, andb_true_r.
    assert (Eu : as_rule u = Rule.url).
    { unfold is_rule in Hu. apply Rule.internal_t_dec_bl. exact Hu. }
    rewrite is_rule_neq; [reflexivity|]. rewrite Eu. discriminate. }
  remember (u :: rest) as tl eqn:Etl.
  cbn [request_loop] in H. rewrite Em in H.
  destruct (request_loop url_parse _ tl) as [st|e] eqn:E; simpl in H; [|discriminate].
  rewrite (request_loop_no_method _ _ _ _ Hn' E) in H. simpl in H.
  destruct (rp_url st); inversion H; subst. exact Htok.
Qed.

Lemma block_loop_method : forall url_parse inner nm req acc nm' req' asserts,
  (forall r, req = Some r -> method_token (method r) = true) ->
  forallb (fun q => if is_rule q Rule.request then wf_request q else true) inner = true ->
  block_loop url_parse nm req acc inner = Ok (nm', req', asserts) ->
  forall r, req' = Some r -> method_token (method r) = true.
Proof.
  intros url_parse. induction inner as [|q inner IH];
    intros nm req acc nm' req' asserts Hreq Hw H; simpl in H.
  - inversion H; subst. exact Hreq.
  - simpl in Hw. apply andb_prop in Hw as [Hq Hw].
    destruct (as_rule q) eqn:Er; try (eapply IH; eassumption).
    + unfold is_rule in Hq. rewrite Er in Hq. simpl in Hq.
      destruct (parse_http_request url_parse q) as [r0|e] eqn:Ep; simpl in H;
        [|discriminate].
      eapply IH; [|exact Hw|exact H].
      intros r Hr. injection Hr as <-. eapply wf_request_method; eassumption.
    + destruct (expects_loop acc (into_inner q)); simpl in H; [|discriminate].
      eapply IH; eassumption.
Qed.

Lemma parse_test_block_method : forall url_parse p tc,
  wf_test_block p = true -> parse_test_block url_parse p = Ok tc ->
  method_token (method (tc_request tc)) = true.
Proof.
  intros url_parse p tc Hw H. unfold wf_test_block in Hw.
  apply andb_prop in Hw as [_ Hw].
  unfold parse_test_block in H.
  destruct (block_loop url_parse None None [] (into_inner p)) as [res|e] eqn:Eb;
    simpl in H; [|discriminate].
  destruct res as [[nm req] asserts]. destruct req as [r|]; [|discriminate].
  inversion H; subst. simpl.
  apply (block_loop_method url_parse (into_inner p) None None [] nm (Some r) asserts);
    [discriminate|exact Hw|exact Eb|reflexivity].
Qed.

Lemma file_loop_method : forall url_parse inner acc tcs,
  Forall (fun tc => method_token (method (tc_request tc)) = true) acc ->
  forallb (fun q => if is_rule q Rule.test_block then wf_test_block q else true) inner
    = true ->
  file_loop url_parse acc inner = Ok tcs ->
  Forall (fun tc => method_token (method (tc_request tc)) = true) tcs.
Proof.
  intros url_parse. induction inner as [|q inner IH]; intros acc tcs Hacc Hw H; simpl in H.
  - inversion H; subst. exact Hacc.
  - simpl in Hw. apply andb_prop in Hw as [Hq Hw].
    destruct (is_rule q Rule.test_block).
    + destruct (parse_test_block url_parse q) as [tc|e] eqn:Et; simpl in H; [|discriminate].
      apply (IH (acc ++ [tc])%list); [|exact Hw|exact H].
      apply Forall_app. split; [exact Hacc|].
      constructor; [|constructor]. eapply parse_test_block_method; eassumption.
    + eapply IH; eassumption.
Qed.

Lemma parse_file_method : forall url_parse pairs tcs,
  wf_file pairs = true -> parse_file url_parse pairs = Ok tcs ->
  Forall (fun tc => method_token (method (tc_request tc)) = true) tcs.
Proof.
  intros url_parse pairs tcs Hw H. unfold wf_file in Hw.
  destruct pairs as [|fp [|x rest]]; try discriminate.
  apply andb_prop in Hw as [_ Hw]. unfold parse_file in H. simpl in H.
  eapply file_loop_method; [constructor|exact Hw|exact H].
Qed.

(** C2: [call_request] fails with [InvalidMethod], whatever the
    transport (so before any network call), on every request whose method,
    upper-cased, is not one of GET, POST, PUT, PATCH, DELETE, HEAD,
    OPTIONS; [HttpRequest::new] upper-cases the method; and every request
    [parse_file] builds from an .ax file has one of the grammar's methods
    GET, POST, PUT, DELETE, PATCH, already upper-case, which
    [call_request] hands to the transport. *)
Theorem pipeline_methods_whitelisted :
  (forall transport r,
     reqwest_method (to_uppercase (method r)) = None ->
     call_request transport r = Err (InvalidMethod (method r))) /\
  (forall m u, method (HttpRequest_new m u) = to_uppercase m) /\
  (forall url_parse pairs tcs, wf_file pairs = true -> parse_file url_parse pairs = Ok tcs ->
     Forall (fun tc =>
       List.In (method (tc_request tc)) ["GET"; "POST"; "PUT"; "DELETE"; "PATCH"] /\
       to_uppercase (method (tc_request tc)) = method (tc_request tc) /\
       exists x, reqwest_method (method (tc_request tc)) = Some x /\
         forall transport, call_request transport (tc_request tc) = transport x (tc_request tc))
       tcs).
Proof.
  split; [exact call_request_rejects_unlisted|].
  split; [reflexivity|].
  intros url_parse pairs tcs Hw H.
  pose proof (parse_file_method url_parse pairs tcs Hw H) as Hf.
  eapply Forall_impl; [|exact Hf]. intros tc Ht.
  destruct (method_token_sent _ Ht) as [Hin [Hup [x Hx]]].
  split; [exact Hin|]. split; [exact Hup|].
  exists x. split; [exact Hx|]. intro transport. unfold call_request. rewrite Hx. reflexivity.
Qed.

Lemma pipeline_methods_whitelisted_witness :
  call_request not_found_transport
    {| method := "trace"; url := "http://h/"; headers := []; body := None |}
    = Err (InvalidMethod "trace") /\
  wf_file between_file = true /\
  parse_file (fun s => Some s) between_file = Ok [between_tc] /\
  Forall (fun tc =>
    List.In (method (tc_request tc)) ["GET"; "POST"; "PUT"; "DELETE"; "PATCH"] /\
    to_uppercase (method (tc_request tc)) = method (tc_request tc) /\
    exists x, reqwest_method (method (tc_request tc)) = Some x /\
      forall transport, call_request transport (tc_request tc) = transport x (tc_request tc))
    [between_tc].
Proof.
  assert (Hw : wf_file between_file = true) by reflexivity.
  assert (Hp : parse_file (fun s => Some s) between_file = Ok [between_tc]) by reflexivity.
  split; [|split; [exact Hw|split; [exact Hp|]]].
  - exact (proj1 pipeline_methods_whitelisted not_found_transport
             {| method := "trace"; url := "http://h/"; headers := []; body := None |}
             eq_refl).
  - exact (proj2 (proj2 pipeline_methods_whitelisted) (fun s => Some s) between_file _ Hw Hp).
Defined.

Lemma body_text_after_line_breaks_witness :
  nl <> EmptyString /\ all_chars is_newline_char nl = true /\
  starts_non_newline ("{}" ++ nl) = true /\
  no_bodyend ("{}" ++ nl) ("BODYEND" ++ "") = true /\
  exists bp, body_rule ("BODY" ++ nl ++ ("{}" ++ nl) ++ "BODYEND" ++ "") = Some (bp, "") /\
    parse_http_request (fun s => Some s)
      (mkPair Rule.request "POST http://h/" (post_request_head ++ [bp])%list)
    = Ok {| method := "POST"; url := "http://h/"; headers := [];
            body := Some (Text ("{}" ++ nl)) |} /\
    body {| method := "POST"; url := "http://h/"; headers := [];
            body := Some (Text ("{}" ++ nl)) |} = Some (Text ("{}" ++ nl)).
Proof.
  assert (H1 : nl <> EmptyString) by discriminate.
  assert (H2 : all_chars is_newline_char nl = true) by reflexivity.
  assert (H3 : starts_non_newline ("{}" ++ nl) = true) by reflexivity.
  assert (H4 : no_bodyend ("{}" ++ nl) ("BODYEND" ++ "") = true) by reflexivity.
  split; [exact H1|split; [exact H2|split; [exact H3|split; [exact H4|]]]].
  destruct (body_text_after_line_breaks (fun s => Some s) nl ("{}" ++ nl) "" "POST http://h/"
              post_request_head
              {| method := "POST"; url := "http://h/"; headers := [];
                 body := Some (Text ("{}" ++ nl)) |} H1 H2 H3 H4) as [bp [Hb Himp]].
  exists bp. split; [exact Hb|].
  assert (Hp : parse_http_request (fun s => Some s)
                 (mkPair Rule.request "POST http://h/" (post_request_head ++ [bp])%list)
               = Ok {| method := "POST"; url := "http://h/"; headers := [];
                       body := Some (Text ("{}" ++ nl)) |}).
  { vm_compute in Hb. injection Hb as <-. reflexivity. }
  split; [exact Hp|exact (Himp Hp)].
Defined.
